(** * mcp-fitbit: the OAuth2 token lifecycle of [auth.ts]

    A shallow embedding of the authentication module of the Fitbit MCP
    server: the token store ([saveTokenToFile], [loadTokenFromFile]), the
    callback listener ([startAuthorizationFlow] and its routes) and the
    token lifecycle manager ([getAccessToken], [initializeAuth]).

    The module keeps three module-level variables ([accessToken],
    [tokenData], [oauthServer]); they are modelled as a record threaded
    through a small state monad together with the token file, the
    runtime's queue of pending callbacks and a trace of the effects the
    code performs.  Everything the code asks of its surroundings (the
    clock, the OAuth library, the file system) is read from an [Env]
    record. *)

From Stdlib Require Import ZArith List String Ascii Bool Lia.
From Stdlib Require Import Decimal DecimalFacts DecimalPos DecimalZ.
Import ListNotations.

Local Open Scope list_scope.

(** ** JavaScript values

    The token objects are plain JSON data: what [JSON.parse] returns and
    what the provider's token endpoint answers.  Strings are sequences of
    8-bit code units and numbers are integers ([expires_in] is a count of
    seconds); a date is held as the string [interface FitbitTokenData]
    declares for [expires_at].  The runtime's [undefined] is a value of
    its own because property lookups produce it. *)

Unset Elimination Schemes.
Inductive JsValue : Type :=
| JUndefined
| JNull
| JBool (b : bool)
| JNum (n : Z)
| JStr (s : string)
| JArr (items : list JsValue)
| JObj (props : list (string * JsValue)).
Set Elimination Schemes.

Definition text := list ascii.

Module Json.

Definition dquote : ascii := ascii_of_nat 34.
Definition nl : ascii := ascii_of_nat 10.
Definition tab : ascii := ascii_of_nat 9.
Definition cr : ascii := ascii_of_nat 13.
Definition bs : ascii := ascii_of_nat 8.
Definition ff : ascii := ascii_of_nat 12.

Definition chars (s : string) : text := list_ascii_of_string s.

(** *** Property access and truthiness *)

Fixpoint lookup (k : string) (props : list (string * JsValue)) : JsValue :=
  match props with
  | [] => JUndefined
  | (k', v) :: ps => if String.eqb k k' then v else lookup k ps
  end.

(** [v.k]: a primitive has none of the token's properties.  The source
    guards every access by the truthiness of the receiver, so the
    [TypeError] of an access on [null] is never reached. *)
Definition get (v : JsValue) (k : string) : JsValue :=
  match v with
  | JObj props => lookup k props
  | _ => JUndefined
  end.

Definition truthy (v : JsValue) : bool :=
  match v with
  | JUndefined | JNull => false
  | JBool b => b
  | JNum n => negb (Z.eqb n 0)
  | JStr s => negb (String.eqb s EmptyString)
  | JArr _ | JObj _ => true
  end.

(** Defining a property keeps the position of a key that is already
    there and appends a new key (insertion order). *)
Fixpoint set_prop (k : string) (v : JsValue) (props : list (string * JsValue))
  : list (string * JsValue) :=
  match props with
  | [] => [(k, v)]
  | (k', v') :: ps =>
      if String.eqb k k' then (k', v) :: ps else (k', v') :: set_prop k v ps
  end.

(** *** [JSON.stringify (value, null, 2)] *)

Definition hex_digit (n : N) : ascii :=
  if (n <? 10)%N then ascii_of_N (48 + n) else ascii_of_N (87 + n).

Definition escape (c : ascii) : text :=
  if Ascii.eqb c dquote then ["\"%char; dquote]
  else if Ascii.eqb c "\"%char then ["\"%char; "\"%char]
  else if Ascii.eqb c bs then ["\"%char; "b"%char]
  else if Ascii.eqb c ff then ["\"%char; "f"%char]
  else if Ascii.eqb c nl then ["\"%char; "n"%char]
  else if Ascii.eqb c cr then ["\"%char; "r"%char]
  else if Ascii.eqb c tab then ["\"%char; "t"%char]
  else if (N_of_ascii c <? 32)%N then
    ["\"%char; "u"%char; "0"%char; "0"%char;
     hex_digit (N_of_ascii c / 16); hex_digit (N_of_ascii c mod 16)]
  else [c].

Fixpoint quote_chars (l : text) : text :=
  match l with
  | [] => []
  | c :: l' => escape c ++ quote_chars l'
  end.

Definition quote (s : string) : text :=
  dquote :: quote_chars (chars s) ++ [dquote].

Fixpoint uint_chars (u : uint) : text :=
  match u with
  | Nil => []
  | D0 u' => "0"%char :: uint_chars u'
  | D1 u' => "1"%char :: uint_chars u'
  | D2 u' => "2"%char :: uint_chars u'
  | D3 u' => "3"%char :: uint_chars u'
  | D4 u' => "4"%char :: uint_chars u'
  | D5 u' => "5"%char :: uint_chars u'
  | D6 u' => "6"%char :: uint_chars u'
  | D7 u' => "7"%char :: uint_chars u'
  | D8 u' => "8"%char :: uint_chars u'
  | D9 u' => "9"%char :: uint_chars u'
  end.

Definition print_num (n : Z) : text :=
  match Z.to_int n with
  | Pos u => uint_chars u
  | Neg u => "-"%char :: uint_chars u
  end.

Definition spaces (n : nat) : text := repeat " "%char n.

(** The members of an object or array, one per line at indentation
    [ind], separated by commas. *)
Fixpoint lines (ind : nat) (parts : list text) : text :=
  match parts with
  | [] => []
  | [p] => nl :: spaces ind ++ p
  | p :: ps => nl :: spaces ind ++ p ++ ","%char :: lines ind ps
  end.

Definition wrap (o c : ascii) (ind : nat) (parts : list text) : text :=
  match parts with
  | [] => [o; c]
  | _ => o :: lines (2 + ind) parts ++ nl :: spaces ind ++ [c]
  end.

(** A property whose value is [undefined] is left out of an object; in
    an array it is written as [null]. *)
Fixpoint print (ind : nat) (v : JsValue) {struct v} : text :=
  match v with
  | JUndefined | JNull => chars "null"
  | JBool true => chars "true"
  | JBool false => chars "false"
  | JNum n => print_num n
  | JStr s => quote s
  | JArr items => wrap "["%char "]"%char ind (map (print (2 + ind)) items)
  | JObj props =>
      wrap "{"%char "}"%char ind
        ((fix members (l : list (string * JsValue)) : list text :=
            match l with
            | [] => []
            | (k, x) :: l' =>
                match x with
                | JUndefined => members l'
                | _ => (quote k ++ ":"%char :: " "%char :: print (2 + ind) x)
                         :: members l'
                end
            end) props)
  end.

(** [JSON.stringify] answers [undefined], not a string, for [undefined]. *)
Definition stringify (v : JsValue) : option string :=
  match v with
  | JUndefined => None
  | _ => Some (string_of_list_ascii (print 0 v))
  end.

(** *** [JSON.parse] *)

Definition is_ws (c : ascii) : bool :=
  Ascii.eqb c " "%char || Ascii.eqb c tab || Ascii.eqb c nl || Ascii.eqb c cr.

Fixpoint skip_ws (l : text) : text :=
  match l with
  | [] => []
  | c :: l' => if is_ws c then skip_ws l' else l
  end.

Definition hex_val (c : ascii) : option N :=
  let n := N_of_ascii c in
  if ((48 <=? n) && (n <=? 57))%N then Some (n - 48)%N
  else if ((97 <=? n) && (n <=? 102))%N then Some (n - 87)%N
  else if ((65 <=? n) && (n <=? 70))%N then Some (n - 55)%N
  else None.

Definition hex4 (a b c d : ascii) : option N :=
  match hex_val a, hex_val b, hex_val c, hex_val d with
  | Some x, Some y, Some z, Some w => Some (((x * 16 + y) * 16 + z) * 16 + w)%N
  | _, _, _, _ => None
  end.

Definition unescape (e : ascii) : option ascii :=
  if Ascii.eqb e dquote then Some dquote
  else if Ascii.eqb e "\"%char then Some "\"%char
  else if Ascii.eqb e "/"%char then Some "/"%char
  else if Ascii.eqb e "b"%char then Some bs
  else if Ascii.eqb e "f"%char then Some ff
  else if Ascii.eqb e "n"%char then Some nl
  else if Ascii.eqb e "r"%char then Some cr
  else if Ascii.eqb e "t"%char then Some tab
  else None.

Definition consS (c : ascii) (r : option (string * text)) : option (string * text) :=
  match r with
  | Some (s, rest) => Some (String c s, rest)
  | None => None
  end.

(** The characters of a string literal after its opening quote.  A code
    unit above 255 (an escape [\uXXXX] beyond Latin-1) has no
    counterpart in [string]: the literal is in the grammar
    ([skip_string_body] accepts it) but gets no value here. *)
Fixpoint parse_string_body (l : text) : option (string * text) :=
  match l with
  | [] => None
  | c :: l' =>
      if Ascii.eqb c dquote then Some (EmptyString, l')
      else if Ascii.eqb c "\"%char then
        match l' with
        | [] => None
        | e :: l'' =>
            if Ascii.eqb e "u"%char then
              match l'' with
              | h1 :: h2 :: h3 :: h4 :: l3 =>
                  match hex4 h1 h2 h3 h4 with
                  | Some n =>
                      if (n <? 256)%N
                      then consS (ascii_of_N n) (parse_string_body l3)
                      else None
                  | None => None
                  end
              | _ => None
              end
            else
              match unescape e with
              | Some ch => consS ch (parse_string_body l'')
              | None => None
              end
        end
      else if (N_of_ascii c <? 32)%N then None
      else consS c (parse_string_body l')
  end.

Definition digit_of (c : ascii) : option (uint -> uint) :=
  if Ascii.eqb c "0"%char then Some D0
  else if Ascii.eqb c "1"%char then Some D1
  else if Ascii.eqb c "2"%char then Some D2
  else if Ascii.eqb c "3"%char then Some D3
  else if Ascii.eqb c "4"%char then Some D4
  else if Ascii.eqb c "5"%char then Some D5
  else if Ascii.eqb c "6"%char then Some D6
  else if Ascii.eqb c "7"%char then Some D7
  else if Ascii.eqb c "8"%char then Some D8
  else if Ascii.eqb c "9"%char then Some D9
  else None.

Definition is_digit (c : ascii) : bool :=
  match digit_of c with Some _ => true | None => false end.

Fixpoint scan_digits (l : text) : uint * text :=
  match l with
  | [] => (Nil, [])
  | c :: l' =>
      match digit_of c with
      | Some d => let (u, r) := scan_digits l' in (d u, r)
      | None => (Nil, l)
      end
  end.

(** The integer part of a JSON number: [0], or digits not starting
    with [0]. *)
Definition int_literal_ok (u : uint) : bool :=
  match u with
  | Nil => false
  | D0 Nil => true
  | D0 _ => false
  | _ => true
  end.

Definition starts_fraction (l : text) : bool :=
  match l with
  | [] => false
  | c :: _ => Ascii.eqb c "."%char || Ascii.eqb c "e"%char || Ascii.eqb c "E"%char
  end.

Definition split_sign (l : text) : bool * text :=
  match l with
  | c :: r => if Ascii.eqb c "-"%char then (true, r) else (false, l)
  | [] => (false, l)
  end.

(** Integers only: a literal with a fraction or an exponent is in the
    grammar ([skip_number] accepts it) but gets no value here. *)
Definition parse_number (l : text) : option (Z * text) :=
  let '(neg, l1) := split_sign l in
  let '(u, r) := scan_digits l1 in
  if int_literal_ok u && negb (starts_fraction r)
  then Some (Z.of_int (if neg then Neg u else Pos u), r)
  else None.

Fixpoint strip_prefix (p l : text) : option text :=
  match p, l with
  | [], _ => Some l
  | a :: p', b :: l' => if Ascii.eqb a b then strip_prefix p' l' else None
  | _ :: _, [] => None
  end.

Definition parse_keyword (l : text) : option (JsValue * text) :=
  match strip_prefix (chars "true") l with
  | Some r => Some (JBool true, r)
  | None =>
      match strip_prefix (chars "false") l with
      | Some r => Some (JBool false, r)
      | None =>
          match strip_prefix (chars "null") l with
          | Some r => Some (JNull, r)
          | None => None
          end
      end
  end.

Fixpoint parse_value (fuel : nat) (l : text) {struct fuel}
  : option (JsValue * text) :=
  match fuel with
  | O => None
  | S f =>
      match skip_ws l with
      | [] => None
      | c :: r =>
          if Ascii.eqb c "{"%char then
            match skip_ws r with
            | [] => None
            | c2 :: r2 =>
                if Ascii.eqb c2 "}"%char then Some (JObj [], r2)
                else parse_members f r []
            end
          else if Ascii.eqb c "["%char then
            match skip_ws r with
            | [] => None
            | c2 :: r2 =>
                if Ascii.eqb c2 "]"%char then Some (JArr [], r2)
                else parse_elems f r []
            end
          else if Ascii.eqb c dquote then
            match parse_string_body r with
            | Some (s, r') => Some (JStr s, r')
            | None => None
            end
          else if Ascii.eqb c "-"%char || is_digit c then
            match parse_number (c :: r) with
            | Some (n, r') => Some (JNum n, r')
            | None => None
            end
          else parse_keyword (c :: r)
      end
  end
with parse_members (fuel : nat) (l : text) (acc : list (string * JsValue))
       {struct fuel} : option (JsValue * text) :=
  match fuel with
  | O => None
  | S f =>
      match skip_ws l with
      | [] => None
      | c :: r =>
          if Ascii.eqb c dquote then
            match parse_string_body r with
            | None => None
            | Some (k, r1) =>
                match skip_ws r1 with
                | [] => None
                | c1 :: r2 =>
                    if Ascii.eqb c1 ":"%char then
                      match parse_value f r2 with
                      | None => None
                      | Some (v, r3) =>
                          match skip_ws r3 with
                          | [] => None
                          | c3 :: r4 =>
                              if Ascii.eqb c3 ","%char
                              then parse_members f r4 (set_prop k v acc)
                              else if Ascii.eqb c3 "}"%char
                              then Some (JObj (set_prop k v acc), r4)
                              else None
                          end
                      end
                    else None
                end
            end
          else None
      end
  end
with parse_elems (fuel : nat) (l : text) (acc : list JsValue)
       {struct fuel} : option (JsValue * text) :=
  match fuel with
  | O => None
  | S f =>
      match parse_value f l with
      | None => None
      | Some (v, r1) =>
          match skip_ws r1 with
          | [] => None
          | c :: r2 =>
              if Ascii.eqb c ","%char
              then parse_elems f r2 (acc ++ [v])
              else if Ascii.eqb c "]"%char
              then Some (JArr (acc ++ [v]), r2)
              else None
          end
      end
  end.

(** One value, surrounded by optional white space, and nothing else.
    [None] stands for a text that is not JSON and also for JSON that the
    value model does not hold; [valid] below tells which.  A level of
    nesting spends two units of fuel on at least one character, so twice
    the length of the input is fuel enough
    ([JsonFacts.parse_value_fuel]). *)
Definition parse (s : string) : option JsValue :=
  let l := chars s in
  match parse_value (2 * List.length l + 1) l with
  | Some (v, r) => match skip_ws r with [] => Some v | _ => None end
  | None => None
  end.

(** The text [JSON.stringify (v, null, 2)] gives for a value other
    than [undefined]. *)
Definition text_of (v : JsValue) : string := string_of_list_ascii (print 0 v).

(** *** The JSON grammar

    [parse] builds values of the model only: it answers [None] for a
    text that is not JSON and also for JSON whose numbers have a fraction
    or an exponent or whose strings have an escape beyond [\u00ff].
    [valid] tells the two apart: it recognises the whole grammar that
    [JSON.parse] accepts, building nothing. *)

Fixpoint skip_string_body (l : text) : option text :=
  match l with
  | [] => None
  | c :: l' =>
      if Ascii.eqb c dquote then Some l'
      else if Ascii.eqb c "\"%char then
        match l' with
        | [] => None
        | e :: l'' =>
            if Ascii.eqb e "u"%char then
              match l'' with
              | h1 :: h2 :: h3 :: h4 :: l3 =>
                  match hex4 h1 h2 h3 h4 with
                  | Some _ => skip_string_body l3
                  | None => None
                  end
              | _ => None
              end
            else
              match unescape e with
              | Some _ => skip_string_body l''
              | None => None
              end
        end
      else if (N_of_ascii c <? 32)%N then None
      else skip_string_body l'
  end.

Definition nonempty_digits (u : uint) : bool :=
  match u with Nil => false | _ => true end.

(** [. digits], if a point follows. *)
Definition skip_fraction (l : text) : option text :=
  match l with
  | c :: r =>
      if Ascii.eqb c "."%char then
        let '(u, r') := scan_digits r in
        if nonempty_digits u then Some r' else None
      else Some l
  | [] => Some l
  end.

(** [e] or [E], an optional sign and digits, if an exponent follows. *)
Definition skip_exponent (l : text) : option text :=
  match l with
  | c :: r =>
      if Ascii.eqb c "e"%char || Ascii.eqb c "E"%char then
        let r1 :=
          match r with
          | c1 :: r' =>
              if Ascii.eqb c1 "+"%char || Ascii.eqb c1 "-"%char then r' else r
          | [] => r
          end in
        let '(u, r2) := scan_digits r1 in
        if nonempty_digits u then Some r2 else None
      else Some l
  | [] => Some l
  end.

Definition skip_number (l : text) : option text :=
  let '(_, l1) := split_sign l in
  let '(u, r) := scan_digits l1 in
  if int_literal_ok u then
    match skip_fraction r with
    | Some r1 => skip_exponent r1
    | None => None
    end
  else None.

Definition skip_keyword (l : text) : option text :=
  match parse_keyword l with
  | Some (_, r) => Some r
  | None => None
  end.

Fixpoint valid_value (fuel : nat) (l : text) {struct fuel} : option text :=
  match fuel with
  | O => None
  | S f =>
      match skip_ws l with
      | [] => None
      | c :: r =>
          if Ascii.eqb c "{"%char then
            match skip_ws r with
            | [] => None
            | c2 :: r2 =>
                if Ascii.eqb c2 "}"%char then Some r2 else valid_members f r
            end
          else if Ascii.eqb c "["%char then
            match skip_ws r with
            | [] => None
            | c2 :: r2 =>
                if Ascii.eqb c2 "]"%char then Some r2 else valid_elems f r
            end
          else if Ascii.eqb c dquote then skip_string_body r
          else if Ascii.eqb c "-"%char || is_digit c then skip_number (c :: r)
          else skip_keyword (c :: r)
      end
  end
with valid_members (fuel : nat) (l : text) {struct fuel} : option text :=
  match fuel with
  | O => None
  | S f =>
      match skip_ws l with
      | [] => None
      | c :: r =>
          if Ascii.eqb c dquote then
            match skip_string_body r with
            | None => None
            | Some r1 =>
                match skip_ws r1 with
                | [] => None
                | c1 :: r2 =>
                    if Ascii.eqb c1 ":"%char then
                      match valid_value f r2 with
                      | None => None
                      | Some r3 =>
                          match skip_ws r3 with
                          | [] => None
                          | c3 :: r4 =>
                              if Ascii.eqb c3 ","%char then valid_members f r4
                              else if Ascii.eqb c3 "}"%char then Some r4
                              else None
                          end
                      end
                    else None
                end
            end
          else None
      end
  end
with valid_elems (fuel : nat) (l : text) {struct fuel} : option text :=
  match fuel with
  | O => None
  | S f =>
      match valid_value f l with
      | None => None
      | Some r1 =>
          match skip_ws r1 with
          | [] => None
          | c :: r2 =>
              if Ascii.eqb c ","%char then valid_elems f r2
              else if Ascii.eqb c "]"%char then Some r2
              else None
          end
      end
  end.

(** The text is one JSON value, white space around it allowed. *)
Definition valid (s : string) : bool :=
  let l := chars s in
  match valid_value (2 * List.length l + 1) l with
  | Some r => match skip_ws r with [] => true | _ => false end
  | None => false
  end.

End Json.


(** ** The token record

    [interface FitbitTokenData]: six required fields and the optional
    [expires_at].  At run time a record is the object [token_object]
    builds; the module stores whatever object it is handed (the casts
    [as FitbitTokenData] check nothing), so its variables hold a
    [JsValue]. *)

Record FitbitTokenData : Type := mkToken {
  access_token : string;
  refresh_token : string;
  expires_in : Z;
  expires_at : option string;
  scope : string;
  token_type : string;
  user_id : string
}.

Definition token_object (r : FitbitTokenData) : JsValue :=
  JObj ([("access_token"%string, JStr (access_token r));
         ("refresh_token"%string, JStr (refresh_token r));
         ("expires_in"%string, JNum (expires_in r))]
        ++ match expires_at r with
           | Some e => [("expires_at"%string, JStr e)]
           | None => []
           end
        ++ [("scope"%string, JStr (scope r));
            ("token_type"%string, JStr (token_type r));
            ("user_id"%string, JStr (user_id r))]).

Definition required_fields : list string :=
  ["access_token"; "refresh_token"; "expires_in"; "scope"; "token_type";
   "user_id"]%string.

Definition defined (v : JsValue) : bool :=
  match v with JUndefined => false | _ => true end.

Definition has_required_fields (v : JsValue) : bool :=
  forallb (fun k => defined (Json.get v k)) required_fields.

(** JSON data: no [undefined] inside, and the keys of every object are
    pairwise distinct (an object has one property per key). *)
Fixpoint distinct (l : list string) : bool :=
  match l with
  | [] => true
  | k :: l' => negb (existsb (String.eqb k) l') && distinct l'
  end.

Fixpoint json_data (v : JsValue) : bool :=
  match v with
  | JUndefined => false
  | JNull | JBool _ | JNum _ | JStr _ => true
  | JArr items => forallb json_data items
  | JObj props =>
      distinct (map fst props)
      && forallb (fun kv => let '(_, x) := kv in json_data x) props
  end.

(** ** Configuration and surroundings *)

Record Config : Type := mkConfig {
  client_id : string;        (* fitbitConfig.client.id *)
  client_secret : string;    (* fitbitConfig.client.secret *)
  TOKEN_FILE_PATH : string
}.

Definition REDIRECT_URI : string := "http://localhost:3000/callback".
Definition PORT : Z := 3000.
Definition SCOPES : string := "weight sleep profile activity heartrate nutrition".

(** What the OAuth library throws.  The provider may answer the token
    request with an error (an invalid, expired or revoked grant: the
    terminal case, with the response attached), or the request may not
    complete at all (the transient case). *)
Inductive LibError : Type :=
| ProviderRejected (message : string) (body : option string)
| NetworkFailure (message : string).

Inductive outcome (A : Type) : Type :=
| Returned (a : A)
| Thrown (e : LibError).
Arguments Returned {A} a.
Arguments Thrown {A} e.

(** Everything one operation reads from outside the module. *)
Record Env : Type := mkEnv {
  now : Z;                                  (* new Date (), milliseconds *)
  date_value : JsValue -> option Z;         (* new Date (v); None: Invalid Date *)
  token_expired : JsValue -> bool;          (* createToken (t).expired () *)
  refresh : JsValue -> outcome JsValue;     (* createToken (t).refresh () *)
  getToken : JsValue -> outcome JsValue;    (* oauthClient.getToken ({code, redirect_uri}) *)
  authorizeURL : string -> string -> string;
  write_error : option string;              (* fs.writeFile throws *)
  read_error : option string;               (* fs.readFile throws *)
  open_fails : bool;                        (* open (url) throws *)
  write_leaves : option string -> string -> option string
    (* what a write that throws leaves of the file, given the old
       contents and the text being written: the file untouched, cut to
       nothing, or written in part *)
}.

(** ** State and effects *)

Inductive Server : Type := HttpServer (port : Z).

(** The two callbacks the code hands to [server.close]. *)
Inductive CloseCallback : Type :=
| ClosedMissingCode
| ClosedAfterCallback.

Record State : Type := mkState {
  accessToken : JsValue;              (* let accessToken: string | null *)
  tokenData : JsValue;                (* let tokenData: FitbitTokenData | null *)
  oauthServer : option Server;        (* let oauthServer: http.Server | null *)
  tokenFile : option string;          (* contents of TOKEN_FILE_PATH, if it exists *)
  closing : list CloseCallback        (* close callbacks the runtime has yet to run *)
}.

Definition initial_state (file : option string) : State :=
  mkState JNull JNull None file [].

Inductive Event : Type :=
| Log (msg : string)
| LogErr (msg : string) (e : LibError)
| RefreshAttempt (token : JsValue)
| ExchangeAttempt (code : JsValue)
| FileWrite (content : string)
| FileRead
| Listen (port : Z)
| ServerClose
| BrowserOpen (url : string)
| Respond (status : Z) (body : string)
| Redirect (url : string).

Definition M (A : Type) : Type := State -> A * State * list Event.

Definition ret {A : Type} (a : A) : M A := fun s => (a, s, []).

Definition bind {A B : Type} (m : M A) (k : A -> M B) : M B :=
  fun s =>
    let '(a, s1, t1) := m s in
    let '(b, s2, t2) := k a s1 in
    (b, s2, t1 ++ t2).

Declare Scope auth_scope.
Delimit Scope auth_scope with auth.
Notation "x <- m ;; k" := (bind m (fun x => k))
  (at level 61, m at next level, right associativity) : auth_scope.
Notation "m ;; k" := (bind m (fun _ => k))
  (at level 61, right associativity) : auth_scope.

Definition emit (e : Event) : M unit := fun s => (tt, s, [e]).
Definition read {A : Type} (f : State -> A) : M A := fun s => (f s, s, []).
Definition modify (f : State -> State) : M unit := fun s => (tt, f s, []).

Definition set_accessToken (v : JsValue) : M unit :=
  modify (fun s => mkState v (tokenData s) (oauthServer s) (tokenFile s) (closing s)).
Definition set_tokenData (v : JsValue) : M unit :=
  modify (fun s => mkState (accessToken s) v (oauthServer s) (tokenFile s) (closing s)).
Definition set_oauthServer (o : option Server) : M unit :=
  modify (fun s => mkState (accessToken s) (tokenData s) o (tokenFile s) (closing s)).
Definition set_tokenFile (f : option string) : M unit :=
  modify (fun s => mkState (accessToken s) (tokenData s) (oauthServer s) f (closing s)).
Definition set_closing (q : list CloseCallback) : M unit :=
  modify (fun s => mkState (accessToken s) (tokenData s) (oauthServer s) (tokenFile s) q).

Definition result {A : Type} (r : A * State * list Event) : A := fst (fst r).
Definition final {A : Type} (r : A * State * list Event) : State := snd (fst r).
Definition events {A : Type} (r : A * State * list Event) : list Event := snd r.

Definition is_refresh (e : Event) : bool :=
  match e with RefreshAttempt _ => true | _ => false end.
Definition is_exchange (e : Event) : bool :=
  match e with ExchangeAttempt _ => true | _ => false end.
Definition is_write (e : Event) : bool :=
  match e with FileWrite _ => true | _ => false end.
Definition is_listen (e : Event) : bool :=
  match e with Listen _ => true | _ => false end.

Definition count (p : Event -> bool) (t : list Event) : nat :=
  List.length (filter p t).

(** [new Date (v) < new Date ()]: a comparison with an Invalid Date is
    false. *)
Definition date_before_now (env : Env) (v : JsValue) : bool :=
  match date_value env v with
  | Some d => (d <? now env)%Z
  | None => false
  end.

Section Auth.

Variable cfg : Config.

Local Open Scope auth_scope.
Local Open Scope string_scope.

(** *** Token store *)

(** [fs.writeFile] truncates the file when it opens it, so what a write
    that throws leaves behind is the file system's affair
    ([write_leaves]). *)
Definition saveTokenToFile (env : Env) (td : JsValue) : M unit :=
  match Json.stringify td with
  | None =>
      (* writeFile rejects a non-string payload; caught *)
      emit (Log "Error saving token to file: TypeError")
  | Some content =>
      emit (FileWrite content) ;;
      match write_error env with
      | None =>
          set_tokenFile (Some content) ;;
          emit (Log ("Token saved to " ++ TOKEN_FILE_PATH cfg))
      | Some err =>
          old <- read tokenFile ;;
          set_tokenFile (write_leaves env old content) ;;
          emit (Log ("Error saving token to file: " ++ err))
      end
  end.

Definition loadTokenFromFile (env : Env) : M JsValue :=
  file <- read tokenFile ;;
  match file with
  | None =>
      emit (Log ("Token file not found at " ++ TOKEN_FILE_PATH cfg)) ;;
      ret JNull
  | Some data =>
      emit FileRead ;;
      match read_error env with
      | Some err =>
          emit (Log ("Error loading token from file: " ++ err)) ;; ret JNull
      | None =>
          match Json.parse data with
          | Some parsedData =>
              emit (Log "Token loaded from file successfully") ;;
              ret parsedData
          | None =>
              (* [JSON.parse] throws; a text with [Json.valid data = true]
                 that ends here is JSON beyond the value model, for
                 which the model has no value to return *)
              emit (Log "Error loading token from file: SyntaxError") ;;
              ret JNull
          end
      end
  end.

(** *** Authorization flow *)

Definition startAuthorizationFlow : M unit :=
  server <- read oauthServer ;;
  match server with
  | Some _ => emit (Log "OAuth server is already running.")
  | None =>
      if (client_id cfg =? EmptyString) || (client_secret cfg =? EmptyString) then
        emit (Log "Error: Fitbit Client ID or Secret not found. Check environment variables.")
      else
        emit (Listen PORT) ;;
        set_oauthServer (Some (HttpServer PORT))
  end.

(** The callback of [app.listen], run once the port is bound. *)
Definition on_listening (env : Env) : M unit :=
  emit (Log "--------------------------------------------------------------------") ;;
  emit (Log "ACTION REQUIRED: Fitbit Authorization Needed") ;;
  emit (Log "Attempting to open authorization page in your browser:") ;;
  emit (Log "http://localhost:3000/auth") ;;
  emit (Log "If the browser doesn't open, please navigate there manually.") ;;
  emit (Log "Waiting for authorization callback...") ;;
  emit (Log "--------------------------------------------------------------------") ;;
  emit (BrowserOpen "http://localhost:3000/auth") ;;
  if open_fails env
  then emit (Log "Failed to open browser automatically:")
  else emit (Log "Browser opened (or attempted).").

(** [oauthServer.on ('error', ...)]: the port could not be bound. *)
Definition on_error : M unit :=
  emit (Log "Error starting temporary OAuth server:") ;;
  set_oauthServer None.

(** [GET /auth] *)
Definition route_auth (env : Env) : M unit :=
  emit (Log "Redirecting to Fitbit for authorization...") ;;
  emit (Redirect (authorizeURL env REDIRECT_URI SCOPES)).

Definition log_exchange_error (e : LibError) : M unit :=
  emit (LogErr "Error obtaining access token:" e) ;;
  match e with
  | ProviderRejected _ (Some details) => emit (Log ("Error details: " ++ details))
  | ProviderRejected _ None => emit (Log "Could not parse error response body.")
  | NetworkFailure _ => ret tt
  end.

(** [GET /callback]; [code] is [req.query.code]. *)
Definition route_callback (env : Env) (code : JsValue) : M unit :=
  if negb (Json.truthy code) then
    emit (Log "Authorization code missing in callback.") ;;
    emit (Respond 400 "Error: Authorization code missing.") ;;
    server <- read oauthServer ;;
    match server with
    | Some _ =>
        emit ServerClose ;;
        q <- read closing ;;
        set_closing (q ++ [ClosedMissingCode]) ;;
        set_oauthServer None
    | None => ret tt
    end
  else
    emit (Log "Received authorization code. Exchanging for token...") ;;
    emit (ExchangeAttempt code) ;;
    match getToken env code with
    | Returned token =>
        emit (Log "Access Token received successfully!") ;;
        set_accessToken (Json.get token "access_token") ;;
        set_tokenData token ;;
        (if Json.truthy token then
           saveTokenToFile env token ;;
           emit (Log "Token data has been persisted to file")
         else ret tt) ;;
        emit (Respond 200 "Authorization successful! You can close this window. The MCP Server is now authenticated.")
    | Thrown e =>
        log_exchange_error e ;;
        emit (Respond 500 "Error obtaining access token. Check MCP server logs.")
    end ;;
    (* finally *)
    server <- read oauthServer ;;
    match server with
    | Some _ =>
        emit (Log "Shutting down temporary OAuth server...") ;;
        emit ServerClose ;;
        q <- read closing ;;
        set_closing (q ++ [ClosedAfterCallback])
    | None => ret tt
    end.

(** The runtime runs a callback given to [server.close] once the server
    has closed. *)
Definition run_close_callback (cb : CloseCallback) : M unit :=
  match cb with
  | ClosedMissingCode => emit (Log "OAuth server closed due to missing code.")
  | ClosedAfterCallback =>
      emit (Log "OAuth server closed.") ;;
      set_oauthServer None
  end.

Definition on_closed : M unit :=
  q <- read closing ;;
  match q with
  | [] => ret tt
  | cb :: q' => set_closing q' ;; run_close_callback cb
  end.

(** *** Token lifecycle *)

Definition getAccessToken (env : Env) : M JsValue :=
  td <- read tokenData ;;
  tok <- read accessToken ;;
  if negb (Json.truthy td) || negb (Json.truthy tok) then ret JNull
  else
    if Json.truthy (Json.get td "expires_at")
       && date_before_now env (Json.get td "expires_at")
    then
      emit (Log "Token is expired. Attempting to refresh...") ;;
      if token_expired env td then
        emit (RefreshAttempt td) ;;
        match refresh env td with
        | Returned token =>
            set_accessToken (Json.get token "access_token") ;;
            set_tokenData token ;;
            saveTokenToFile env token ;;
            emit (Log "Token refreshed and saved successfully.") ;;
            read accessToken
        | Thrown refreshError =>
            emit (LogErr "Failed to refresh token:" refreshError) ;;
            set_accessToken JNull ;;
            set_tokenData JNull ;;
            ret JNull
        end
      else read accessToken
    else read accessToken.

Definition initializeAuth (env : Env) : M unit :=
  emit (Log "Auth initialized. Checking for persisted token...") ;;
  loaded <- loadTokenFromFile env ;;
  set_tokenData loaded ;;
  if Json.truthy loaded && Json.truthy (Json.get loaded "access_token") then
    set_accessToken (Json.get loaded "access_token") ;;
    emit (Log "Persisted access token loaded successfully.") ;;
    if Json.truthy (Json.get loaded "expires_at")
       && date_before_now env (Json.get loaded "expires_at")
    then
      emit (Log "Token is expired. Attempting to refresh...") ;;
      if token_expired env loaded then
        emit (RefreshAttempt loaded) ;;
        match refresh env loaded with
        | Returned token =>
            set_accessToken (Json.get token "access_token") ;;
            set_tokenData token ;;
            (if Json.truthy token then saveTokenToFile env token else ret tt) ;;
            emit (Log "Token refreshed and saved successfully.")
        | Thrown refreshError =>
            emit (LogErr "Failed to refresh token:" refreshError) ;;
            set_accessToken JNull ;;
            set_tokenData JNull
        end
      else ret tt
    else ret tt
  else
    emit (Log "No persisted access token found or token data is invalid.").

(** *** Runs

    The operations the rest of the server and the runtime can invoke,
    each run to completion (the module is single-threaded and the model
    does not interleave two of them). *)

Inductive Op : Type :=
| CallGetAccessToken
| CallStartAuthorizationFlow
| EvListening
| EvBindError
| GetAuth
| GetCallback (code : JsValue)
| EvClosed.

Definition step (env : Env) (op : Op) : M JsValue :=
  match op with
  | CallGetAccessToken => getAccessToken env
  | CallStartAuthorizationFlow => startAuthorizationFlow ;; ret JUndefined
  | EvListening => on_listening env ;; ret JUndefined
  | EvBindError => on_error ;; ret JUndefined
  | GetAuth => route_auth env ;; ret JUndefined
  | GetCallback code => route_callback env code ;; ret JUndefined
  | EvClosed => on_closed ;; ret JUndefined
  end.

(** The state after a sequence of operations, each with its own
    surroundings, and the values they returned. *)
Fixpoint run (ops : list (Env * Op)) (s : State) : list JsValue * State :=
  match ops with
  | [] => ([], s)
  | (env, op) :: rest =>
      let r := step env op s in
      let '(vs, s') := run rest (final r) in
      (result r :: vs, s')
  end.

(** A callback request that completes an authorization: it carries a
    code and the exchange succeeds. *)
Definition completes_authorization (env : Env) (op : Op) : bool :=
  match op with
  | GetCallback code =>
      Json.truthy code &&
      match getToken env code with Returned _ => true | Thrown _ => false end
  | _ => false
  end.

End Auth.

(** What follows a value in the output of [JSON.stringify]: the end of
    the text, a comma, or the line break before a closing bracket. *)
Definition delimited (rest : text) : bool :=
  match rest with
  | [] => true
  | c :: _ => Ascii.eqb c ","%char || Ascii.eqb c Json.nl
  end.

(** The first character of a printed value: not white space and not a
    closing bracket. *)
Definition opens_value (l : text) : bool :=
  match l with
  | [] => false
  | c :: _ =>
      negb (Json.is_ws c) && negb (Ascii.eqb c "]"%char) && negb (Ascii.eqb c "}"%char)
  end.

(** ** Claims as predicates, and sample surroundings *)

Local Open Scope string_scope.

Definition responses (t : list Event) : list Event :=
  filter (fun e => match e with Respond _ _ => true | _ => false end) t.

(** The in-memory record is present and its [expires_at] lies before
    the current time [now env]. *)
Definition expired_in_memory (env : Env) (s : State) : Prop :=
  Json.truthy (tokenData s) = true /\
  Json.truthy (accessToken s) = true /\
  Json.truthy (Json.get (tokenData s) "expires_at") = true /\
  exists d, date_value env (Json.get (tokenData s) "expires_at") = Some d /\ (d < now env)%Z.

Definition cleared (s : State) : Prop :=
  accessToken s = JNull /\ tokenData s = JNull.

(** [accessToken] is the [access_token] of [tokenData], unless it is
    [null]. *)
Definition token_linked (s : State) : Prop :=
  accessToken s = JNull \/ accessToken s = Json.get (tokenData s) "access_token".

Definition fully_present (s : State) : bool :=
  Json.truthy (accessToken s) && Json.truthy (tokenData s)
  && has_required_fields (tokenData s).

Definition no_partial_state (s : State) : Prop :=
  fully_present s = true \/ cleared s.

(** The record survives a transient refresh failure. *)
Definition keeps_record_on_transient_failure (cfg : Config) (env : Env) (s : State) : Prop :=
  expired_in_memory env s ->
  forall msg, refresh env (tokenData s) = Thrown (NetworkFailure msg) ->
  let r := getAccessToken cfg env s in
  result r = JNull /\ tokenData (final r) = tokenData s
  /\ accessToken (final r) = accessToken s.

(** The listener reference is cleared by the time the callback handler
    returns. *)
Definition clears_reference_synchronously (cfg : Config) (env : Env) (code : JsValue)
           (s : State) : Prop :=
  oauthServer (final (route_callback cfg env code s)) = None.

Definition sample_config : Config :=
  mkConfig "23ABCD" "0123456789abcdef" "/srv/mcp-fitbit/.fitbit-token.json".

Definition old_record : FitbitTokenData :=
  mkToken "old-access" "refresh-1" 28800 (Some "2024-01-01T00:00:00.000Z")
          "weight sleep" "Bearer" "USER1".

Definition new_record : FitbitTokenData :=
  mkToken "new-access" "refresh-2" 28800 (Some "2024-01-01T09:00:00.000Z")
          "weight sleep" "Bearer" "USER1".

Definition undated_record : FitbitTokenData :=
  mkToken "plain-access" "refresh-3" 28800 None "weight sleep" "Bearer" "USER1".

(** 2024-01-01T00:00Z and 2024-01-01T09:00Z in milliseconds; the clock
    of the samples reads 01:00Z. *)
Definition sample_dates (v : JsValue) : option Z :=
  match v with
  | JStr e =>
      if String.eqb e "2024-01-01T00:00:00.000Z" then Some 1704067200000%Z
      else if String.eqb e "2024-01-01T09:00:00.000Z" then Some 1704099600000%Z
      else None
  | _ => None
  end.

Definition sample_now : Z := 1704070800000.

(** The library's own check, on the same clock: expired once
    [expires_at] is not after the current time. *)
Definition sample_expired (t : JsValue) : bool :=
  match sample_dates (Json.get t "expires_at") with
  | Some d => (d <=? sample_now)%Z
  | None => false
  end.

Definition sample_env (refreshed exchanged : outcome JsValue) : Env :=
  mkEnv sample_now sample_dates sample_expired
        (fun _ => refreshed) (fun _ => exchanged)
        (fun redirect scope => "https://www.fitbit.com/oauth2/authorize")
        None None false (fun old _ => old).

Definition env_ok : Env :=
  sample_env (Returned (token_object new_record)) (Returned (token_object new_record)).
Definition env_transient : Env :=
  sample_env (Thrown (NetworkFailure "ECONNRESET")) (Thrown (NetworkFailure "ECONNRESET")).
Definition env_terminal : Env :=
  sample_env (Thrown (ProviderRejected "invalid_grant" (Some "Refresh token invalid")))
             (Thrown (ProviderRejected "invalid_grant" None)).

Definition holding (r : FitbitTokenData) (server : option Server) : State :=
  mkState (JStr (access_token r)) (token_object r) server None [].


(** ** Further predicates on traces, configurations and states *)

Definition is_read (e : Event) : bool :=
  match e with FileRead => true | _ => false end.
Definition is_close (e : Event) : bool :=
  match e with ServerClose => true | _ => false end.

(** Both client credentials are set ([fitbitConfig.client.id] and
    [fitbitConfig.client.secret] are not the empty string). *)
Definition configured (cfg : Config) : Prop :=
  client_id cfg <> EmptyString /\ client_secret cfg <> EmptyString.

(** The process-start state once [initializeAuth] has taken [loaded]
    from the token file. *)
Definition loaded_state (loaded : JsValue) (file : option string) : State :=
  mkState (Json.get loaded "access_token") loaded None file [].

(** No usable token file: it is missing, it cannot be read, or its
    text is not JSON. *)
Definition no_usable_file (env : Env) (file : option string) : Prop :=
  file = None \/ read_error env <> None
  \/ exists data, file = Some data /\ Json.valid data = false.

(** Every write in the trace comes after a refresh attempt. *)
Fixpoint writes_follow_refresh (refreshed : bool) (t : list Event) : bool :=
  match t with
  | [] => true
  | RefreshAttempt _ :: t' => writes_follow_refresh true t'
  | FileWrite _ :: t' => refreshed && writes_follow_refresh refreshed t'
  | _ :: t' => writes_follow_refresh refreshed t'
  end.



Definition env_disk_full : Env :=
  mkEnv sample_now sample_dates sample_expired
        (fun _ => Returned (token_object new_record))
        (fun _ => Returned (token_object new_record))
        (fun redirect scope => "https://www.fitbit.com/oauth2/authorize")
        (Some "ENOSPC") None false (fun _ _ => Some EmptyString).

(** The operations of the listener other than the callback route. *)
Definition is_listener_event (op : Op) : bool :=
  match op with
  | CallGetAccessToken | GetCallback _ => false
  | _ => true
  end.

(** The text [saveTokenToFile] writes for [old_record]. *)
Definition sample_file : string :=
  string_of_list_ascii (Json.print 0 (token_object old_record)).

(** [tokenData.expires_at && new Date (tokenData.expires_at) < new Date ()],
    the test both [getAccessToken] and [initializeAuth] make. *)
Definition past_expiry (env : Env) (td : JsValue) : bool :=
  Json.truthy (Json.get td "expires_at")
  && date_before_now env (Json.get td "expires_at").

Local Close Scope string_scope.

(** The text of one property, and the properties of an object as
    [Json.print] lists them. *)
Definition member_text (ind : nat) (kv : string * JsValue) : text :=
  Json.quote (fst kv) ++ ":"%char :: " "%char :: Json.print ind (snd kv).

Definition members (ind : nat) : list (string * JsValue) -> list text :=
  fix members (l : list (string * JsValue)) : list text :=
    match l with
    | [] => []
    | (k, x) :: l' =>
        match x with
        | JUndefined => members l'
        | _ => (Json.quote k ++ ":"%char :: " "%char :: Json.print ind x)
                 :: members l'
        end
    end.

(** The induction hypothesis of the round trip, for one value. *)
Definition reads_back (v : JsValue) : Prop :=
  json_data v = true ->
  forall (ind : nat) (rest : text) (fuel : nat),
    delimited rest = true ->
    List.length (Json.print ind v) <= fuel ->
    Json.parse_value fuel (Json.print ind v ++ rest) = Some (v, rest).

(** * Facts about the JSON model *)

Section JsValue_induction.

Variable P : JsValue -> Prop.
Hypothesis P_undefined : P JUndefined.
Hypothesis P_null : P JNull.
Hypothesis P_bool : forall b, P (JBool b).
Hypothesis P_num : forall n, P (JNum n).
Hypothesis P_str : forall s, P (JStr s).
Hypothesis P_arr : forall items, Forall P items -> P (JArr items).
Hypothesis P_obj : forall props, Forall (fun kv => P (snd kv)) props -> P (JObj props).

Fixpoint JsValue_ind (v : JsValue) : P v :=
  match v with
  | JUndefined => P_undefined
  | JNull => P_null
  | JBool b => P_bool b
  | JNum n => P_num n
  | JStr s => P_str s
  | JArr items =>
      P_arr items
        ((fix all (l : list JsValue) : Forall P l :=
            match l with
            | [] => Forall_nil _
            | x :: l' => Forall_cons x (JsValue_ind x) (all l')
            end) items)
  | JObj props =>
      P_obj props
        ((fix all (l : list (string * JsValue)) : Forall (fun kv => P (snd kv)) l :=
            match l with
            | [] => Forall_nil _
            | (k, x) :: l' =>
                Forall_cons (P := fun kv => P (snd kv)) (k, x) (JsValue_ind x) (all l')
            end) props)
  end.

End JsValue_induction.

Module JsonFacts.
Import Json.

(** **** White space *)

Lemma skip_ws_spaces (n : nat) (l : text) : skip_ws (spaces n ++ l) = skip_ws l.
Proof.
  induction n as [|n IH]; [reflexivity|]. exact IH.
Qed.

Lemma skip_ws_line (n : nat) (l : text) : skip_ws (nl :: spaces n ++ l) = skip_ws l.
Proof.
  change (skip_ws (spaces n ++ l) = skip_ws l). apply skip_ws_spaces.
Qed.

(** **** String literals *)

Lemma parse_escape (c : ascii) (tail : text) :
  parse_string_body (escape c ++ tail) = consS c (parse_string_body tail).
Proof.
  destruct c as [[] [] [] [] [] [] [] []]; reflexivity.
Qed.

Lemma parse_quote_chars (l : text) (rest : text) :
  parse_string_body (quote_chars l ++ dquote :: rest)
  = Some (string_of_list_ascii l, rest).
Proof.
  induction l as [|c l IH]; [reflexivity|].
  cbn [quote_chars string_of_list_ascii]. rewrite <- app_assoc, parse_escape, IH.
  reflexivity.
Qed.

Lemma parse_quote (s : string) (rest : text) :
  parse_string_body (quote_chars (chars s) ++ dquote :: rest) = Some (s, rest).
Proof.
  unfold chars. rewrite parse_quote_chars, string_of_list_ascii_of_string.
  reflexivity.
Qed.

(** **** Numbers *)

Lemma nzhead_shape (d : uint) :
  match nzhead d with D0 _ => False | _ => True end.
Proof.
  induction d; cbn [nzhead]; auto.
Qed.

Lemma int_literal_ok_unorm (d : uint) : int_literal_ok (unorm d) = true.
Proof.
  unfold unorm. pose proof (nzhead_shape d) as H.
  destruct (nzhead d); try reflexivity. contradiction.
Qed.

Lemma int_literal_ok_pos (p : positive) : int_literal_ok (Pos.to_uint p) = true.
Proof.
  replace (Pos.to_uint p) with (unorm (Pos.to_uint p)).
  - apply int_literal_ok_unorm.
  - rewrite <- DecimalPos.Unsigned.to_of, DecimalPos.Unsigned.of_to. reflexivity.
Qed.

Lemma int_literal_ok_to_int (n : Z) :
  match Z.to_int n with Pos u | Neg u => int_literal_ok u = true end.
Proof.
  destruct n; cbn [Z.to_int]; try apply int_literal_ok_pos. reflexivity.
Qed.

Lemma delimited_not_digit (rest : text) :
  delimited rest = true -> scan_digits rest = (Nil, rest).
Proof.
  destruct rest as [|c rest]; [reflexivity|]. cbn [delimited]. intros H.
  apply orb_true_iff in H. destruct H as [H|H]; apply Ascii.eqb_eq in H; subst c;
    reflexivity.
Qed.

Lemma delimited_not_fraction (rest : text) :
  delimited rest = true -> starts_fraction rest = false.
Proof.
  destruct rest as [|c rest]; [reflexivity|]. cbn [delimited]. intros H.
  apply orb_true_iff in H. destruct H as [H|H]; apply Ascii.eqb_eq in H; subst c;
    reflexivity.
Qed.

Lemma scan_digit (c : ascii) (d : uint -> uint) (l : text) :
  digit_of c = Some d ->
  scan_digits (c :: l) = (d (fst (scan_digits l)), snd (scan_digits l)).
Proof.
  intros H. cbn [scan_digits]. rewrite H. now destruct (scan_digits l).
Qed.

Lemma scan_uint_chars (u : uint) (rest : text) :
  delimited rest = true -> scan_digits (uint_chars u ++ rest) = (u, rest).
Proof.
  intros H. induction u; cbn [uint_chars];
    [ now apply delimited_not_digit
    | rewrite <- app_comm_cons; erewrite scan_digit by reflexivity;
      rewrite IHu; reflexivity .. ].
Qed.

Lemma split_sign_digits (u : uint) (rest : text) :
  int_literal_ok u = true ->
  split_sign (uint_chars u ++ rest) = (false, uint_chars u ++ rest).
Proof.
  destruct u; intros Hok; try reflexivity. discriminate Hok.
Qed.

Lemma parse_number_unsigned (u : uint) (rest : text) :
  int_literal_ok u = true -> delimited rest = true ->
  parse_number (uint_chars u ++ rest) = Some (Z.of_int (Pos u), rest).
Proof.
  intros Hok Hd. unfold parse_number.
  rewrite (split_sign_digits u rest Hok), (scan_uint_chars u rest Hd), Hok,
    (delimited_not_fraction rest Hd).
  reflexivity.
Qed.

Lemma parse_number_negative (u : uint) (rest : text) :
  int_literal_ok u = true -> delimited rest = true ->
  parse_number ("-"%char :: uint_chars u ++ rest) = Some (Z.of_int (Neg u), rest).
Proof.
  intros Hok Hd. unfold parse_number.
  change (split_sign ("-"%char :: uint_chars u ++ rest)) with (true, uint_chars u ++ rest).
  cbv beta iota.
  rewrite (scan_uint_chars u rest Hd), Hok, (delimited_not_fraction rest Hd).
  reflexivity.
Qed.

Lemma parse_print_num (n : Z) (rest : text) :
  delimited rest = true ->
  parse_number (print_num n ++ rest) = Some (n, rest).
Proof.
  intros Hd. unfold print_num.
  pose proof (int_literal_ok_to_int n) as Hok.
  pose proof (DecimalZ.of_to n) as Hn.
  destruct (Z.to_int n) as [u|u].
  - rewrite parse_number_unsigned by assumption. now rewrite Hn.
  - rewrite <- app_comm_cons, parse_number_negative by assumption. now rewrite Hn.
Qed.

(** **** Printed values *)

Lemma print_obj (ind : nat) (props : list (string * JsValue)) :
  print ind (JObj props) = wrap "{"%char "}"%char ind (members (2 + ind) props).
Proof. reflexivity. Qed.

Lemma print_arr (ind : nat) (items : list JsValue) :
  print ind (JArr items) = wrap "["%char "]"%char ind (map (print (2 + ind)) items).
Proof. reflexivity. Qed.

Lemma members_defined (ind : nat) (props : list (string * JsValue)) :
  forallb (fun kv => let '(_, x) := kv in json_data x) props = true ->
  members ind props = map (member_text ind) props.
Proof.
  induction props as [|[k x] props IH]; [reflexivity|].
  cbn [forallb]. intros H. apply andb_true_iff in H. destruct H as [Hx Hl].
  cbn [members map]. rewrite (IH Hl).
  destruct x; try reflexivity. discriminate Hx.
Qed.

Lemma parse_value_ws (f : nat) (c : ascii) (r : text) :
  is_ws c = true -> parse_value f (c :: r) = parse_value f r.
Proof.
  intros H. destruct f; [reflexivity|].
  cbn [parse_value skip_ws]. rewrite H. reflexivity.
Qed.

Lemma parse_value_line (f n : nat) (l : text) :
  parse_value f (nl :: spaces n ++ l) = parse_value f l.
Proof.
  destruct f; [reflexivity|]. cbn [parse_value]. rewrite skip_ws_line. reflexivity.
Qed.

Lemma parse_value_string (f : nat) (r : text) :
  parse_value (S f) (dquote :: r)
  = match parse_string_body r with
    | Some (s, r') => Some (JStr s, r')
    | None => None
    end.
Proof. reflexivity. Qed.

Lemma parse_value_number (f : nat) (c : ascii) (r : text) :
  Ascii.eqb c "-"%char || is_digit c = true ->
  parse_value (S f) (c :: r)
  = match parse_number (c :: r) with
    | Some (n, r') => Some (JNum n, r')
    | None => None
    end.
Proof.
  destruct c as [[] [] [] [] [] [] [] []]; intros H; try discriminate H; reflexivity.
Qed.

Lemma print_num_head (n : Z) :
  exists c t, print_num n = c :: t /\ Ascii.eqb c "-"%char || is_digit c = true.
Proof.
  unfold print_num. pose proof (int_literal_ok_to_int n) as Hok.
  destruct (Z.to_int n) as [u|u].
  - destruct u; try discriminate Hok; cbn [uint_chars]; eexists _, _; split; reflexivity.
  - eexists _, _; split; reflexivity.
Qed.

Lemma opens_value_skip (l : text) :
  opens_value l = true ->
  exists c r, l = c :: r /\ skip_ws l = c :: r
              /\ Ascii.eqb c "]"%char = false /\ Ascii.eqb c "}"%char = false.
Proof.
  destruct l as [|c r]; [discriminate|]. cbn [opens_value]. intros H.
  apply andb_true_iff in H. destruct H as [H H3].
  apply andb_true_iff in H. destruct H as [H1 H2].
  apply negb_true_iff in H1, H2, H3.
  exists c, r. cbn [skip_ws]. rewrite H1. auto.
Qed.

Lemma skip_ws_keep (c : ascii) (r : text) :
  is_ws c = false -> skip_ws (c :: r) = c :: r.
Proof. intros H. cbn [skip_ws]. now rewrite H. Qed.

Lemma wrap_cons (o c : ascii) (ind : nat) (p : text) (ps : list text) :
  wrap o c ind (p :: ps) = o :: lines (2 + ind) (p :: ps) ++ nl :: spaces ind ++ [c].
Proof. reflexivity. Qed.

Lemma lines_one (ind : nat) (p : text) : lines ind [p] = nl :: spaces ind ++ p.
Proof. reflexivity. Qed.

Lemma lines_more (ind : nat) (p q : text) (ps : list text) :
  lines ind (p :: q :: ps) = nl :: spaces ind ++ p ++ ","%char :: lines ind (q :: ps).
Proof. reflexivity. Qed.

Lemma lines_head (ind : nat) (p : text) (ps : list text) (X : text) :
  exists Y, lines ind (p :: ps) ++ X = nl :: spaces ind ++ p ++ Y.
Proof.
  destruct ps as [|q ps].
  - exists X. rewrite lines_one. cbn [List.app]. now rewrite <- app_assoc.
  - exists (","%char :: lines ind (q :: ps) ++ X). rewrite lines_more.
    cbn [List.app]. rewrite <- !app_assoc. reflexivity.
Qed.

Lemma opens_value_print (ind : nat) (v : JsValue) (rest : text) :
  opens_value (print ind v ++ rest) = true.
Proof.
  destruct v as [| |b|n|s|items|props]; try reflexivity.
  - destruct b; reflexivity.
  - cbn [print]. destruct (print_num_head n) as (c & t & -> & H).
    destruct c as [[] [] [] [] [] [] [] []]; try discriminate H; reflexivity.
  - rewrite print_arr. destruct (map (print (2 + ind)) items); reflexivity.
  - rewrite print_obj. destruct (members (2 + ind) props); reflexivity.
Qed.

Lemma opens_value_member (ind : nat) (kv : string * JsValue) (rest : text) :
  opens_value (member_text ind kv ++ rest) = true.
Proof. reflexivity. Qed.

Lemma length_spaces (n : nat) : List.length (spaces n) = n.
Proof. apply repeat_length. Qed.

Lemma length_lines_one (ind : nat) (p : text) :
  List.length (lines ind [p]) = S (ind + List.length p).
Proof. rewrite lines_one. cbn [List.length]. now rewrite length_app, length_spaces. Qed.

Lemma length_lines_more (ind : nat) (p q : text) (ps : list text) :
  List.length (lines ind (p :: q :: ps))
  = S (ind + (List.length p + S (List.length (lines ind (q :: ps))))).
Proof.
  rewrite lines_more. cbn [List.length].
  rewrite !length_app, length_spaces. reflexivity.
Qed.

Lemma length_wrap_cons (o c : ascii) (ind : nat) (p : text) (ps : list text) :
  List.length (wrap o c ind (p :: ps))
  = S (List.length (lines (2 + ind) (p :: ps)) + S (ind + 1)).
Proof.
  rewrite wrap_cons. cbn [List.length]. rewrite length_app. cbn [List.length].
  rewrite length_app, length_spaces. reflexivity.
Qed.

Lemma parse_elems_eq (f : nat) (l : text) (acc : list JsValue) :
  parse_elems (S f) l acc
  = match parse_value f l with
    | None => None
    | Some (v, r1) =>
        match skip_ws r1 with
        | [] => None
        | c :: r2 =>
            if Ascii.eqb c ","%char then parse_elems f r2 (acc ++ [v])
            else if Ascii.eqb c "]"%char then Some (JArr (acc ++ [v]), r2)
            else None
        end
    end.
Proof. reflexivity. Qed.

Lemma parse_print_elems (ind0 ind : nat) (items : list JsValue) :
  Forall reads_back items ->
  forallb json_data items = true ->
  items <> [] ->
  forall (acc : list JsValue) (rest : text) (fuel : nat),
    List.length (lines ind (map (print ind) items)) <= fuel ->
    parse_elems fuel
      (lines ind (map (print ind) items) ++ nl :: spaces ind0 ++ "]"%char :: rest) acc
    = Some (JArr (acc ++ items), rest).
Proof.
  induction items as [|x tl IH]; [congruence|].
  intros HF Hd _ acc rest fuel Hfuel.
  apply Forall_cons_iff in HF. destruct HF as [Hx Htl].
  cbn [forallb] in Hd. apply andb_true_iff in Hd. destruct Hd as [Hdx Hdtl].
  destruct tl as [|y tl'].
  - cbn [map] in *. rewrite length_lines_one in Hfuel.
    destruct fuel as [|f]; [lia|].
    rewrite lines_one, parse_elems_eq. cbn [List.app]. rewrite <- app_assoc.
    rewrite parse_value_line, (Hx Hdx) by (reflexivity || lia).
    rewrite skip_ws_line. reflexivity.
  - cbn [map] in *. rewrite length_lines_more in Hfuel.
    destruct fuel as [|f]; [lia|].
    rewrite lines_more, parse_elems_eq. cbn [List.app]. rewrite <- !app_assoc.
    rewrite parse_value_line. cbn [List.app].
    rewrite (Hx Hdx) by (reflexivity || lia).
    rewrite skip_ws_keep by reflexivity. rewrite Ascii.eqb_refl.
    rewrite IH by (assumption || discriminate || lia).
    rewrite <- app_assoc. reflexivity.
Qed.

Lemma skip_ws_lines (ind : nat) (p : text) (ps : list text) (X : text) :
  (forall Y, opens_value (p ++ Y) = true) ->
  exists c r, skip_ws (lines ind (p :: ps) ++ X) = c :: r
              /\ Ascii.eqb c "]"%char = false /\ Ascii.eqb c "}"%char = false.
Proof.
  intros Hp. destruct (lines_head ind p ps X) as [Y ->].
  rewrite skip_ws_line.
  destruct (opens_value_skip (p ++ Y) (Hp Y)) as (c & r & _ & Hs & H1 & H2).
  exists c, r. auto.
Qed.

(** **** Objects *)

Lemma parse_members_eq (f : nat) (l : text) (acc : list (string * JsValue)) :
  parse_members (S f) l acc
  = match skip_ws l with
    | [] => None
    | c :: r =>
        if Ascii.eqb c dquote then
          match parse_string_body r with
          | None => None
          | Some (k, r1) =>
              match skip_ws r1 with
              | [] => None
              | c1 :: r2 =>
                  if Ascii.eqb c1 ":"%char then
                    match parse_value f r2 with
                    | None => None
                    | Some (v, r3) =>
                        match skip_ws r3 with
                        | [] => None
                        | c3 :: r4 =>
                            if Ascii.eqb c3 ","%char
                            then parse_members f r4 (set_prop k v acc)
                            else if Ascii.eqb c3 "}"%char
                            then Some (JObj (set_prop k v acc), r4)
                            else None
                        end
                    end
                  else None
              end
          end
        else None
    end.
Proof. reflexivity. Qed.

Lemma set_prop_fresh (k : string) (v : JsValue) (acc : list (string * JsValue)) :
  existsb (String.eqb k) (map fst acc) = false ->
  set_prop k v acc = acc ++ [(k, v)].
Proof.
  induction acc as [|[k' v'] acc IH]; [reflexivity|].
  cbn [map fst existsb set_prop List.app]. intros H.
  apply orb_false_iff in H. destruct H as [H1 H2].
  rewrite H1, (IH H2). reflexivity.
Qed.

Lemma distinct_fresh (acc : list (string * JsValue)) (k : string) (x : JsValue)
      (tl : list (string * JsValue)) :
  distinct (map fst (acc ++ (k, x) :: tl)) = true ->
  existsb (String.eqb k) (map fst acc) = false.
Proof.
  induction acc as [|[k0 v0] acc IH]; [reflexivity|].
  cbn [map fst List.app distinct existsb]. intros H.
  apply andb_true_iff in H. destruct H as [H1 H2].
  rewrite (IH H2), orb_false_r.
  destruct (String.eqb k k0) eqn:E; [|reflexivity].
  apply String.eqb_eq in E. subst k0.
  rewrite map_app, existsb_app in H1. cbn [map fst existsb] in H1.
  rewrite String.eqb_refl, orb_true_r in H1. discriminate H1.
Qed.

Lemma member_text_app (ind : nat) (k : string) (x : JsValue) (R : text) :
  member_text ind (k, x) ++ R
  = dquote :: quote_chars (chars k) ++ dquote :: ":"%char :: " "%char :: print ind x ++ R.
Proof.
  unfold member_text, quote. cbn [fst snd List.app].
  rewrite <- !app_assoc. reflexivity.
Qed.

Lemma length_member_text (ind : nat) (k : string) (x : JsValue) :
  List.length (print ind x) < List.length (member_text ind (k, x)).
Proof.
  unfold member_text. cbn [fst snd]. rewrite length_app. cbn [List.length]. lia.
Qed.

Lemma parse_member (ind : nat) (k : string) (x : JsValue) (R : text) (f : nat)
      (acc : list (string * JsValue)) :
  reads_back x -> json_data x = true -> delimited R = true ->
  List.length (member_text ind (k, x)) <= f ->
  existsb (String.eqb k) (map fst acc) = false ->
  forall n,
  parse_members (S f) (nl :: spaces n ++ member_text ind (k, x) ++ R) acc
  = match skip_ws R with
    | [] => None
    | c3 :: r4 =>
        if Ascii.eqb c3 ","%char
        then parse_members f r4 (acc ++ [(k, x)])
        else if Ascii.eqb c3 "}"%char
        then Some (JObj (acc ++ [(k, x)]), r4)
        else None
    end.
Proof.
  intros Hx Hdx HR Hf Hk n.
  pose proof (length_member_text ind k x) as Hlen.
  rewrite parse_members_eq, skip_ws_line, member_text_app.
  rewrite skip_ws_keep by reflexivity. rewrite Ascii.eqb_refl.
  rewrite parse_quote. rewrite skip_ws_keep by reflexivity. rewrite Ascii.eqb_refl.
  rewrite parse_value_ws by reflexivity.
  rewrite (Hx Hdx) by (assumption || lia).
  rewrite (set_prop_fresh k x acc Hk). reflexivity.
Qed.

Lemma parse_print_members (ind0 ind : nat) (props : list (string * JsValue)) :
  Forall (fun kv => reads_back (snd kv)) props ->
  forallb (fun kv => let '(_, x) := kv in json_data x) props = true ->
  props <> [] ->
  forall (acc : list (string * JsValue)) (rest : text) (fuel : nat),
    distinct (map fst (acc ++ props)) = true ->
    List.length (lines ind (map (member_text ind) props)) <= fuel ->
    parse_members fuel
      (lines ind (map (member_text ind) props) ++ nl :: spaces ind0 ++ "}"%char :: rest)
      acc
    = Some (JObj (acc ++ props), rest).
Proof.
  induction props as [|[k x] tl IH]; [congruence|].
  intros HF Hd _ acc rest fuel Hk Hfuel.
  apply Forall_cons_iff in HF. destruct HF as [Hx Htl]. cbn [snd] in Hx.
  cbn [forallb] in Hd. apply andb_true_iff in Hd. destruct Hd as [Hdx Hdtl].
  pose proof (distinct_fresh acc k x tl Hk) as Hfresh.
  destruct tl as [|kv tl'].
  - cbn [map] in *. rewrite length_lines_one in Hfuel.
    destruct fuel as [|f]; [lia|].
    rewrite lines_one. cbn [List.app]. rewrite <- app_assoc.
    rewrite (parse_member ind k x) by (assumption || reflexivity || lia).
    rewrite skip_ws_line. rewrite skip_ws_keep by reflexivity. reflexivity.
  - cbn [map] in *. rewrite length_lines_more in Hfuel.
    destruct fuel as [|f]; [lia|].
    rewrite lines_more. cbn [List.app]. rewrite <- !app_assoc. cbn [List.app].
    rewrite (parse_member ind k x) by (assumption || reflexivity || lia).
    rewrite skip_ws_keep by reflexivity. rewrite Ascii.eqb_refl.
    rewrite IH; try assumption; try discriminate; try lia.
    + rewrite <- app_assoc. reflexivity.
    + rewrite <- app_assoc. exact Hk.
Qed.

(** **** Values *)

Lemma wrap_cons_app (o c : ascii) (ind : nat) (p : text) (ps : list text) (rest : text) :
  wrap o c ind (p :: ps) ++ rest
  = o :: lines (2 + ind) (p :: ps) ++ nl :: spaces ind ++ c :: rest.
Proof.
  rewrite wrap_cons. cbn [List.app]. rewrite <- app_assoc. cbn [List.app].
  rewrite <- app_assoc. reflexivity.
Qed.

Lemma parse_value_array (f : nat) (r : text) :
  parse_value (S f) ("["%char :: r)
  = match skip_ws r with
    | [] => None
    | c2 :: r2 =>
        if Ascii.eqb c2 "]"%char then Some (JArr [], r2) else parse_elems f r []
    end.
Proof. reflexivity. Qed.

Lemma parse_value_object (f : nat) (r : text) :
  parse_value (S f) ("{"%char :: r)
  = match skip_ws r with
    | [] => None
    | c2 :: r2 =>
        if Ascii.eqb c2 "}"%char then Some (JObj [], r2) else parse_members f r []
    end.
Proof. reflexivity. Qed.

Lemma reads_back_all (v : JsValue) : reads_back v.
Proof.
  induction v as [| |b|n|s|items IH|props IH] using JsValue_ind;
    intros Hd ind rest fuel Hrest Hfuel.
  - discriminate Hd.
  - destruct fuel as [|f]; [cbn in Hfuel; lia|]. reflexivity.
  - destruct fuel as [|f]; [destruct b; cbn in Hfuel; lia|]. destruct b; reflexivity.
  - cbn [print] in *. destruct (print_num_head n) as (c & t & E & H).
    destruct fuel as [|f]; [rewrite E in Hfuel; cbn in Hfuel; lia|].
    pose proof (parse_print_num n rest Hrest) as Hn.
    rewrite E in *. cbn [List.app] in *.
    rewrite parse_value_number by exact H. rewrite Hn. reflexivity.
  - cbn [print] in *. unfold quote in *.
    destruct fuel as [|f]; [cbn in Hfuel; lia|].
    cbn [List.app]. rewrite <- app_assoc. cbn [List.app].
    rewrite parse_value_string, parse_quote. reflexivity.
  - rewrite print_arr in *. destruct items as [|x tl].
    + destruct fuel as [|f]; [cbn in Hfuel; lia|]. reflexivity.
    + cbn [map] in *. rewrite length_wrap_cons in Hfuel. rewrite wrap_cons_app.
      destruct fuel as [|f]; [lia|].
      rewrite parse_value_array.
      destruct (skip_ws_lines (2 + ind) (print (2 + ind) x)
                  (map (print (2 + ind)) tl) (nl :: spaces ind ++ "]"%char :: rest))
        as (c & r & -> & -> & _); [intros Y; apply opens_value_print|].
      apply (parse_print_elems ind (2 + ind) (x :: tl) IH Hd) with (acc := []);
        [discriminate | cbn [map]; lia].
  - cbn [json_data] in Hd. apply andb_true_iff in Hd. destruct Hd as [Hk Hd].
    rewrite print_obj, (members_defined _ _ Hd) in *. destruct props as [|[k x] tl].
    + destruct fuel as [|f]; [cbn in Hfuel; lia|]. reflexivity.
    + cbn [map] in Hfuel |- *. rewrite length_wrap_cons in Hfuel.
      rewrite wrap_cons_app.
      destruct fuel as [|f]; [lia|].
      rewrite parse_value_object.
      destruct (skip_ws_lines (2 + ind) (member_text (2 + ind) (k, x))
                  (map (member_text (2 + ind)) tl) (nl :: spaces ind ++ "}"%char :: rest))
        as (c & r & -> & _ & ->); [intros Y; apply opens_value_member|].
      apply (parse_print_members ind (2 + ind) ((k, x) :: tl) IH Hd) with (acc := []);
        [discriminate | exact Hk | cbn [map]; lia].
Qed.

(** [JSON.parse (JSON.stringify (v, null, 2))] is [v] for JSON data. *)
Lemma parse_stringify (v : JsValue) :
  json_data v = true ->
  exists s, stringify v = Some s /\ parse s = Some v.
Proof.
  intros Hd. exists (string_of_list_ascii (print 0 v)). split.
  - destruct v; try reflexivity. discriminate Hd.
  - unfold parse, chars. rewrite list_ascii_of_string_of_list_ascii.
    rewrite <- (List.app_nil_r (print 0 v)) at 2.
    rewrite (reads_back_all v Hd) by (reflexivity || lia). reflexivity.
Qed.

(** **** The parser never runs out of fuel *)

Lemma parse_value_eq (f : nat) (l : text) :
  parse_value (S f) l
  = match skip_ws l with
    | [] => None
    | c :: r =>
        if Ascii.eqb c "{"%char then
          match skip_ws r with
          | [] => None
          | c2 :: r2 =>
              if Ascii.eqb c2 "}"%char then Some (JObj [], r2)
              else parse_members f r []
          end
        else if Ascii.eqb c "["%char then
          match skip_ws r with
          | [] => None
          | c2 :: r2 =>
              if Ascii.eqb c2 "]"%char then Some (JArr [], r2)
              else parse_elems f r []
          end
        else if Ascii.eqb c dquote then
          match parse_string_body r with
          | Some (s, r') => Some (JStr s, r')
          | None => None
          end
        else if Ascii.eqb c "-"%char || is_digit c then
          match parse_number (c :: r) with
          | Some (n, r') => Some (JNum n, r')
          | None => None
          end
        else parse_keyword (c :: r)
    end.
Proof. reflexivity. Qed.

Lemma skip_ws_length (l : text) : List.length (skip_ws l) <= List.length l.
Proof.
  induction l as [|c l IH]; [reflexivity|]. cbn [skip_ws].
  destruct (is_ws c); cbn [List.length]; lia.
Qed.

Lemma skip_ws_cons_length (l : text) (c : ascii) (r : text) :
  skip_ws l = c :: r -> S (List.length r) <= List.length l.
Proof.
  intros H. pose proof (skip_ws_length l) as Hl. rewrite H in Hl. exact Hl.
Qed.

Lemma consS_length (c : ascii) (o : option (string * text)) (s : string) (r : text) (n : nat) :
  (forall s' r', o = Some (s', r') -> List.length r' <= n) ->
  consS c o = Some (s, r) -> List.length r <= n.
Proof.
  intros H. destruct o as [[s' r']|]; cbn [consS]; [|discriminate].
  intros E. injection E as _ <-. eauto.
Qed.

Lemma parse_string_body_length (l : text) (s : string) (r : text) :
  parse_string_body l = Some (s, r) -> S (List.length r) <= List.length l.
Proof.
  remember (List.length l) as n eqn:Hn. revert l s r Hn.
  induction n as [n IH] using lt_wf_ind. intros l s r Hn.
  destruct l as [|c l]; [discriminate|]. cbn [parse_string_body].
  cbn [List.length] in Hn.
  destruct (Ascii.eqb c dquote).
  { intros E. injection E as _ <-. lia. }
  destruct (Ascii.eqb c "\"%char).
  - destruct l as [|e l]; [discriminate|]. cbn [List.length] in Hn.
    destruct (Ascii.eqb e "u"%char).
    + destruct l as [|h1 [|h2 [|h3 [|h4 l]]]]; try discriminate.
      cbn [List.length] in Hn.
      destruct (hex4 h1 h2 h3 h4) as [k|]; [|discriminate].
      destruct (k <? 256)%N; [|discriminate].
      intros E. enough (List.length r <= List.length l) by lia.
      apply (consS_length _ _ _ _ _ (fun s' r' E' =>
               Nat.lt_le_incl _ _ (IH (List.length l) ltac:(lia) l s' r' eq_refl E')) E).
    + destruct (unescape e); [|discriminate].
      intros E. enough (List.length r <= List.length l) by lia.
      apply (consS_length _ _ _ _ _ (fun s' r' E' =>
               Nat.lt_le_incl _ _ (IH (List.length l) ltac:(lia) l s' r' eq_refl E')) E).
  - destruct (N_of_ascii c <? 32)%N; [discriminate|].
    intros E. enough (List.length r <= List.length l) by lia.
    apply (consS_length _ _ _ _ _ (fun s' r' E' =>
             Nat.lt_le_incl _ _ (IH (List.length l) ltac:(lia) l s' r' eq_refl E')) E).
Qed.

Lemma scan_digits_length (l : text) :
  List.length (snd (scan_digits l)) <= List.length l.
Proof.
  induction l as [|c l IH]; [reflexivity|]. cbn [scan_digits].
  destruct (digit_of c) as [d|]; [|reflexivity].
  destruct (scan_digits l) as [u r]. cbn [snd List.length] in *. lia.
Qed.

Lemma parse_number_length (l : text) (n : Z) (r : text) :
  parse_number l = Some (n, r) -> List.length r <= List.length l.
Proof.
  unfold parse_number.
  assert (Hs : List.length (snd (split_sign l)) <= List.length l).
  { destruct l as [|c l]; [reflexivity|]. cbn [split_sign].
    destruct (Ascii.eqb c "-"%char); cbn [snd List.length]; lia. }
  destruct (split_sign l) as [neg l1]. cbn [snd] in Hs.
  pose proof (scan_digits_length l1) as Hd.
  destruct (scan_digits l1) as [u r']. cbn [snd] in Hd.
  destruct (_ && _); [|discriminate]. intros E. injection E as _ <-. lia.
Qed.

Lemma strip_prefix_length (p l r : text) :
  strip_prefix p l = Some r -> List.length r <= List.length l.
Proof.
  revert l. induction p as [|a p IH]; intros l; cbn [strip_prefix].
  - intros E. injection E as <-. lia.
  - destruct l as [|b l]; [discriminate|].
    destruct (Ascii.eqb a b); [|discriminate].
    intros E. apply IH in E. cbn [List.length]. lia.
Qed.

Lemma parse_keyword_length (l : text) (v : JsValue) (r : text) :
  parse_keyword l = Some (v, r) -> List.length r <= List.length l.
Proof.
  unfold parse_keyword.
  destruct (strip_prefix (chars "true") l) eqn:E1.
  { intros E. injection E as _ <-. eapply strip_prefix_length; eauto. }
  destruct (strip_prefix (chars "false") l) eqn:E2.
  { intros E. injection E as _ <-. eapply strip_prefix_length; eauto. }
  destruct (strip_prefix (chars "null") l) eqn:E3; [|discriminate].
  intros E. injection E as _ <-. eapply strip_prefix_length; eauto.
Qed.

Ltac split_match :=
  match goal with
  | |- context [match ?x with _ => _ end] => destruct x eqn:?
  end.

Ltac length_facts :=
  repeat match goal with
    | H : skip_ws _ = _ :: _ |- _ => apply skip_ws_cons_length in H
    | H : parse_string_body _ = Some _ |- _ => apply parse_string_body_length in H
    | H : parse_number _ = Some _ |- _ => apply parse_number_length in H
    | H : parse_keyword _ = Some _ |- _ => apply parse_keyword_length in H
    end;
  cbn [List.length] in *.

(** A successful parse returns a suffix no longer than its input. *)
Lemma parse_lengths (F : nat) :
  (forall l v r, parse_value F l = Some (v, r) -> List.length r <= List.length l)
  /\ (forall l acc v r,
        parse_members F l acc = Some (v, r) -> List.length r <= List.length l)
  /\ (forall l acc v r,
        parse_elems F l acc = Some (v, r) -> List.length r <= List.length l).
Proof.
  induction F as [|f (IHv & IHm & IHe)]; [repeat split; discriminate|].
  repeat split.
  - intros l v r. rewrite parse_value_eq.
    repeat split_match; intros E; try discriminate E;
      try (injection E as <- <-); try apply IHm in E; try apply IHe in E;
      length_facts; lia.
  - intros l acc v r. rewrite parse_members_eq.
    repeat split_match; intros E; try discriminate E;
      try (injection E as <- <-); try apply IHm in E;
      repeat match goal with
        | H : parse_value f _ = Some _ |- _ => apply IHv in H
        end;
      length_facts; lia.
  - intros l acc v r. rewrite parse_elems_eq.
    repeat split_match; intros E; try discriminate E;
      try (injection E as <- <-); try apply IHe in E;
      repeat match goal with
        | H : parse_value f _ = Some _ |- _ => apply IHv in H
        end;
      length_facts; lia.
Qed.

(** Past twice the length of the input, more fuel changes nothing. *)
Lemma parse_fuel (F : nat) :
  (forall l F', 2 * List.length l + 1 <= F -> F <= F' ->
                parse_value F' l = parse_value F l)
  /\ (forall l acc F', 2 * List.length l + 2 <= F -> F <= F' ->
                       parse_members F' l acc = parse_members F l acc)
  /\ (forall l acc F', 2 * List.length l + 2 <= F -> F <= F' ->
                       parse_elems F' l acc = parse_elems F l acc).
Proof.
  induction F as [|f (IHv & IHm & IHe)]; [repeat split; intros; lia|].
  repeat split.
  - intros l [|f'] Hl Hf; [lia|]. rewrite !parse_value_eq.
    repeat split_match; try reflexivity; length_facts;
      [apply IHm | apply IHe]; lia.
  - intros l acc [|f'] Hl Hf; [lia|]. rewrite !parse_members_eq.
    destruct (skip_ws l) as [|c r] eqn:E0; [reflexivity|].
    destruct (Ascii.eqb c dquote); [|reflexivity].
    destruct (parse_string_body r) as [[k r1]|] eqn:E1; [|reflexivity].
    destruct (skip_ws r1) as [|c1 r2] eqn:E2; [reflexivity|].
    destruct (Ascii.eqb c1 ":"%char); [|reflexivity].
    length_facts. rewrite (IHv r2 f') by lia.
    destruct (parse_value f r2) as [[v r3]|] eqn:E3; [|reflexivity].
    apply (proj1 (parse_lengths f)) in E3.
    destruct (skip_ws r3) as [|c3 r4] eqn:E4; [reflexivity|].
    length_facts.
    destruct (Ascii.eqb c3 ","%char); [apply IHm; lia|reflexivity].
  - intros l acc [|f'] Hl Hf; [lia|]. rewrite !parse_elems_eq.
    rewrite (IHv l f') by lia.
    destruct (parse_value f l) as [[v r1]|] eqn:E1; [|reflexivity].
    apply (proj1 (parse_lengths f)) in E1.
    destruct (skip_ws r1) as [|c r2] eqn:E2; [reflexivity|].
    length_facts.
    destruct (Ascii.eqb c ","%char); [apply IHe; lia|reflexivity].
Qed.

(** The fuel [JSON.parse] starts with is enough: a larger amount gives
    the same answer. *)
Lemma parse_value_fuel (l : text) (F : nat) :
  2 * List.length l + 1 <= F ->
  parse_value F l = parse_value (2 * List.length l + 1) l.
Proof.
  intros H. apply (proj1 (parse_fuel (2 * List.length l + 1))); lia.
Qed.

(** **** [parse] and the grammar *)

Lemma consS_some (c : ascii) (o : option (string * text)) (s : string) (r : text) :
  consS c o = Some (s, r) -> exists s', o = Some (s', r).
Proof.
  destruct o as [[s' r']|]; cbn [consS]; [|discriminate].
  intros E. injection E as _ <-. eauto.
Qed.

Lemma skip_string_body_parsed (l : text) (s : string) (r : text) :
  parse_string_body l = Some (s, r) -> skip_string_body l = Some r.
Proof.
  remember (List.length l) as n eqn:Hn. revert l s r Hn.
  induction n as [n IH] using lt_wf_ind. intros l s r Hn.
  destruct l as [|c l]; [discriminate|]. cbn [parse_string_body skip_string_body].
  cbn [List.length] in Hn.
  destruct (Ascii.eqb c dquote).
  { intros E. injection E as _ <-. reflexivity. }
  destruct (Ascii.eqb c "\"%char).
  - destruct l as [|e l]; [discriminate|]. cbn [List.length] in Hn.
    destruct (Ascii.eqb e "u"%char).
    + destruct l as [|h1 [|h2 [|h3 [|h4 l]]]]; try discriminate.
      cbn [List.length] in Hn.
      destruct (hex4 h1 h2 h3 h4) as [k|]; [|discriminate].
      destruct (k <? 256)%N; [|discriminate].
      intros E. apply consS_some in E. destruct E as [s' E].
      apply (IH (List.length l) ltac:(lia) l s' r eq_refl E).
    + destruct (unescape e); [|discriminate].
      intros E. apply consS_some in E. destruct E as [s' E].
      apply (IH (List.length l) ltac:(lia) l s' r eq_refl E).
  - destruct (N_of_ascii c <? 32)%N; [discriminate|].
    intros E. apply consS_some in E. destruct E as [s' E].
    apply (IH (List.length l) ltac:(lia) l s' r eq_refl E).
Qed.

Lemma skip_number_parsed (l : text) (n : Z) (r : text) :
  parse_number l = Some (n, r) -> skip_number l = Some r.
Proof.
  unfold parse_number, skip_number.
  destruct (split_sign l) as [neg l1]. destruct (scan_digits l1) as [u r'].
  destruct (int_literal_ok u); [|discriminate]. cbn [andb].
  destruct (starts_fraction r') eqn:Hf; [discriminate|]. cbn [negb].
  intros E. injection E as _ <-.
  destruct r' as [|c r']; [reflexivity|].
  cbn [starts_fraction] in Hf.
  apply orb_false_iff in Hf. destruct Hf as [Hf He].
  apply orb_false_iff in Hf. destruct Hf as [Hp He'].
  cbn [skip_fraction]. rewrite Hp. cbn [skip_exponent]. rewrite He', He. reflexivity.
Qed.

Lemma skip_keyword_parsed (l : text) (v : JsValue) (r : text) :
  parse_keyword l = Some (v, r) -> skip_keyword l = Some r.
Proof. unfold skip_keyword. intros ->. reflexivity. Qed.

Lemma valid_value_eq (f : nat) (l : text) :
  valid_value (S f) l
  = match skip_ws l with
    | [] => None
    | c :: r =>
        if Ascii.eqb c "{"%char then
          match skip_ws r with
          | [] => None
          | c2 :: r2 =>
              if Ascii.eqb c2 "}"%char then Some r2 else valid_members f r
          end
        else if Ascii.eqb c "["%char then
          match skip_ws r with
          | [] => None
          | c2 :: r2 =>
              if Ascii.eqb c2 "]"%char then Some r2 else valid_elems f r
          end
        else if Ascii.eqb c dquote then skip_string_body r
        else if Ascii.eqb c "-"%char || is_digit c then skip_number (c :: r)
        else skip_keyword (c :: r)
    end.
Proof. reflexivity. Qed.

Lemma valid_members_eq (f : nat) (l : text) :
  valid_members (S f) l
  = match skip_ws l with
    | [] => None
    | c :: r =>
        if Ascii.eqb c dquote then
          match skip_string_body r with
          | None => None
          | Some r1 =>
              match skip_ws r1 with
              | [] => None
              | c1 :: r2 =>
                  if Ascii.eqb c1 ":"%char then
                    match valid_value f r2 with
                    | None => None
                    | Some r3 =>
                        match skip_ws r3 with
                        | [] => None
                        | c3 :: r4 =>
                            if Ascii.eqb c3 ","%char then valid_members f r4
                            else if Ascii.eqb c3 "}"%char then Some r4
                            else None
                        end
                    end
                  else None
              end
          end
        else None
    end.
Proof. reflexivity. Qed.

Lemma valid_elems_eq (f : nat) (l : text) :
  valid_elems (S f) l
  = match valid_value f l with
    | None => None
    | Some r1 =>
        match skip_ws r1 with
        | [] => None
        | c :: r2 =>
            if Ascii.eqb c ","%char then valid_elems f r2
            else if Ascii.eqb c "]"%char then Some r2
            else None
        end
    end.
Proof. reflexivity. Qed.

(** Whatever [parse] reads is in the grammar. *)
Lemma valid_parsed (F : nat) :
  (forall l v r, parse_value F l = Some (v, r) -> valid_value F l = Some r)
  /\ (forall l acc v r, parse_members F l acc = Some (v, r) -> valid_members F l = Some r)
  /\ (forall l acc v r, parse_elems F l acc = Some (v, r) -> valid_elems F l = Some r).
Proof.
  induction F as [|f (IHv & IHm & IHe)]; [repeat split; discriminate|].
  repeat split.
  - intros l v r. rewrite parse_value_eq, valid_value_eq.
    destruct (skip_ws l) as [|c t]; [discriminate|].
    destruct (Ascii.eqb c "{"%char).
    { destruct (skip_ws t) as [|c2 t2]; [discriminate|].
      destruct (Ascii.eqb c2 "}"%char); [|apply IHm].
      intros E. injection E as _ <-. reflexivity. }
    destruct (Ascii.eqb c "["%char).
    { destruct (skip_ws t) as [|c2 t2]; [discriminate|].
      destruct (Ascii.eqb c2 "]"%char); [|apply IHe].
      intros E. injection E as _ <-. reflexivity. }
    destruct (Ascii.eqb c dquote).
    { destruct (parse_string_body t) as [[s t']|] eqn:Es; [|discriminate].
      intros E. injection E as _ <-. eapply skip_string_body_parsed; eauto. }
    destruct (Ascii.eqb c "-"%char || is_digit c).
    { destruct (parse_number (c :: t)) as [[n t']|] eqn:En; [|discriminate].
      intros E. injection E as _ <-. eapply skip_number_parsed; eauto. }
    apply skip_keyword_parsed.
  - intros l acc v r. rewrite parse_members_eq, valid_members_eq.
    destruct (skip_ws l) as [|c t]; [discriminate|].
    destruct (Ascii.eqb c dquote); [|discriminate].
    destruct (parse_string_body t) as [[k t1]|] eqn:Es; [|discriminate].
    rewrite (skip_string_body_parsed _ _ _ Es).
    destruct (skip_ws t1) as [|c1 t2]; [discriminate|].
    destruct (Ascii.eqb c1 ":"%char); [|discriminate].
    destruct (parse_value f t2) as [[x t3]|] eqn:Ev; [|discriminate].
    rewrite (IHv _ _ _ Ev).
    destruct (skip_ws t3) as [|c3 t4]; [discriminate|].
    destruct (Ascii.eqb c3 ","%char); [apply IHm|].
    destruct (Ascii.eqb c3 "}"%char); [|discriminate].
    intros E. injection E as _ <-. reflexivity.
  - intros l acc v r. rewrite parse_elems_eq, valid_elems_eq.
    destruct (parse_value f l) as [[x t1]|] eqn:Ev; [|discriminate].
    rewrite (IHv _ _ _ Ev).
    destruct (skip_ws t1) as [|c t2]; [discriminate|].
    destruct (Ascii.eqb c ","%char); [apply IHe|].
    destruct (Ascii.eqb c "]"%char); [|discriminate].
    intros E. injection E as _ <-. reflexivity.
Qed.

Lemma parse_valid (s : string) (v : JsValue) : parse s = Some v -> valid s = true.
Proof.
  unfold parse, valid.
  destruct (parse_value _ _) as [[x r]|] eqn:E; [|discriminate].
  rewrite (proj1 (valid_parsed _) _ _ _ E).
  destruct (skip_ws r); [reflexivity|discriminate].
Qed.

(** A text outside the grammar is a text [parse] does not read. *)
Lemma invalid_not_parsed (s : string) : valid s = false -> parse s = None.
Proof.
  intros H. destruct (parse s) as [v|] eqn:E; [|reflexivity].
  apply parse_valid in E. congruence.
Qed.

(** **** The recogniser never runs out of fuel *)

Lemma skip_string_body_length (l r : text) :
  skip_string_body l = Some r -> S (List.length r) <= List.length l.
Proof.
  remember (List.length l) as n eqn:Hn. revert l r Hn.
  induction n as [n IH] using lt_wf_ind. intros l r Hn.
  destruct l as [|c l]; [discriminate|]. cbn [skip_string_body].
  cbn [List.length] in Hn.
  destruct (Ascii.eqb c dquote).
  { intros E. injection E as <-. lia. }
  destruct (Ascii.eqb c "\"%char).
  - destruct l as [|e l]; [discriminate|]. cbn [List.length] in Hn.
    destruct (Ascii.eqb e "u"%char).
    + destruct l as [|h1 [|h2 [|h3 [|h4 l]]]]; try discriminate.
      cbn [List.length] in Hn.
      destruct (hex4 h1 h2 h3 h4) as [k|]; [|discriminate].
      intros E. pose proof (IH (List.length l) ltac:(lia) l r eq_refl E). lia.
    + destruct (unescape e); [|discriminate].
      intros E. pose proof (IH (List.length l) ltac:(lia) l r eq_refl E). lia.
  - destruct (N_of_ascii c <? 32)%N; [discriminate|].
    intros E. pose proof (IH (List.length l) ltac:(lia) l r eq_refl E). lia.
Qed.

Lemma skip_fraction_length (l r : text) :
  skip_fraction l = Some r -> List.length r <= List.length l.
Proof.
  destruct l as [|c l]; cbn [skip_fraction].
  - intros E. injection E as <-. lia.
  - destruct (Ascii.eqb c "."%char).
    + pose proof (scan_digits_length l) as Hd.
      destruct (scan_digits l) as [u r']. cbn [snd] in Hd.
      destruct (nonempty_digits u); [|discriminate].
      intros E. injection E as <-. cbn [List.length]. lia.
    + intros E. injection E as <-. lia.
Qed.

Lemma skip_exponent_length (l r : text) :
  skip_exponent l = Some r -> List.length r <= List.length l.
Proof.
  destruct l as [|c l]; cbn [skip_exponent].
  - intros E. injection E as <-. lia.
  - destruct (Ascii.eqb c "e"%char || Ascii.eqb c "E"%char).
    + set (r1 := match l with
                 | [] => l
                 | c1 :: r' =>
                     if Ascii.eqb c1 "+"%char || Ascii.eqb c1 "-"%char then r' else l
                 end).
      assert (H1 : List.length r1 <= List.length l).
      { subst r1. destruct l as [|c1 r']; [lia|].
        destruct (_ || _); cbn [List.length]; lia. }
      pose proof (scan_digits_length r1) as Hd.
      destruct (scan_digits r1) as [u r2]. cbn [snd] in Hd.
      destruct (nonempty_digits u); [|discriminate].
      intros E. injection E as <-. cbn [List.length]. lia.
    + intros E. injection E as <-. lia.
Qed.

Lemma skip_number_length (l r : text) :
  skip_number l = Some r -> List.length r <= List.length l.
Proof.
  unfold skip_number.
  assert (Hs : List.length (snd (split_sign l)) <= List.length l).
  { destruct l as [|c l]; [reflexivity|]. cbn [split_sign].
    destruct (Ascii.eqb c "-"%char); cbn [snd List.length]; lia. }
  destruct (split_sign l) as [neg l1]. cbn [snd] in Hs.
  pose proof (scan_digits_length l1) as Hd.
  destruct (scan_digits l1) as [u r']. cbn [snd] in Hd.
  destruct (int_literal_ok u); [|discriminate].
  destruct (skip_fraction r') as [r1|] eqn:Ef; [|discriminate].
  apply skip_fraction_length in Ef.
  intros E. apply skip_exponent_length in E. lia.
Qed.

Lemma skip_keyword_length (l r : text) :
  skip_keyword l = Some r -> List.length r <= List.length l.
Proof.
  unfold skip_keyword. destruct (parse_keyword l) as [[v r']|] eqn:E; [|discriminate].
  intros H. injection H as <-. eapply parse_keyword_length; eauto.
Qed.

Ltac skipped_lengths :=
  repeat match goal with
    | H : skip_ws _ = _ :: _ |- _ => apply skip_ws_cons_length in H
    | H : skip_string_body _ = Some _ |- _ => apply skip_string_body_length in H
    | H : skip_number _ = Some _ |- _ => apply skip_number_length in H
    | H : skip_keyword _ = Some _ |- _ => apply skip_keyword_length in H
    end;
  cbn [List.length] in *.

Lemma valid_lengths (F : nat) :
  (forall l r, valid_value F l = Some r -> List.length r <= List.length l)
  /\ (forall l r, valid_members F l = Some r -> List.length r <= List.length l)
  /\ (forall l r, valid_elems F l = Some r -> List.length r <= List.length l).
Proof.
  induction F as [|f (IHv & IHm & IHe)]; [repeat split; discriminate|].
  repeat split.
  - intros l r. rewrite valid_value_eq.
    repeat split_match; intros E; try discriminate E;
      try (injection E as <-); try apply IHm in E; try apply IHe in E;
      skipped_lengths; lia.
  - intros l r. rewrite valid_members_eq.
    repeat split_match; intros E; try discriminate E;
      try (injection E as <-); try apply IHm in E;
      repeat match goal with
        | H : valid_value f _ = Some _ |- _ => apply IHv in H
        end;
      skipped_lengths; lia.
  - intros l r. rewrite valid_elems_eq.
    repeat split_match; intros E; try discriminate E;
      try (injection E as <-); try apply IHe in E;
      repeat match goal with
        | H : valid_value f _ = Some _ |- _ => apply IHv in H
        end;
      skipped_lengths; lia.
Qed.

Lemma valid_fuel (F : nat) :
  (forall l F', 2 * List.length l + 1 <= F -> F <= F' ->
                valid_value F' l = valid_value F l)
  /\ (forall l F', 2 * List.length l + 2 <= F -> F <= F' ->
                   valid_members F' l = valid_members F l)
  /\ (forall l F', 2 * List.length l + 2 <= F -> F <= F' ->
                   valid_elems F' l = valid_elems F l).
Proof.
  induction F as [|f (IHv & IHm & IHe)]; [repeat split; intros; lia|].
  repeat split.
  - intros l [|f'] Hl Hf; [lia|]. rewrite !valid_value_eq.
    destruct (skip_ws l) as [|c r] eqn:E0; [reflexivity|].
    destruct (Ascii.eqb c "{"%char).
    { destruct (skip_ws r) as [|c2 r2] eqn:E1; [reflexivity|].
      destruct (Ascii.eqb c2 "}"%char); [reflexivity|].
      skipped_lengths. apply IHm; lia. }
    destruct (Ascii.eqb c "["%char); [|reflexivity].
    destruct (skip_ws r) as [|c2 r2] eqn:E1; [reflexivity|].
    destruct (Ascii.eqb c2 "]"%char); [reflexivity|].
    skipped_lengths. apply IHe; lia.
  - intros l [|f'] Hl Hf; [lia|]. rewrite !valid_members_eq.
    destruct (skip_ws l) as [|c r] eqn:E0; [reflexivity|].
    destruct (Ascii.eqb c dquote); [|reflexivity].
    destruct (skip_string_body r) as [r1|] eqn:E1; [|reflexivity].
    destruct (skip_ws r1) as [|c1 r2] eqn:E2; [reflexivity|].
    destruct (Ascii.eqb c1 ":"%char); [|reflexivity].
    skipped_lengths. rewrite (IHv r2 f') by lia.
    destruct (valid_value f r2) as [r3|] eqn:E3; [|reflexivity].
    apply (proj1 (valid_lengths f)) in E3.
    destruct (skip_ws r3) as [|c3 r4] eqn:E4; [reflexivity|].
    skipped_lengths.
    destruct (Ascii.eqb c3 ","%char); [apply IHm; lia|reflexivity].
  - intros l [|f'] Hl Hf; [lia|]. rewrite !valid_elems_eq.
    rewrite (IHv l f') by lia.
    destruct (valid_value f l) as [r1|] eqn:E1; [|reflexivity].
    apply (proj1 (valid_lengths f)) in E1.
    destruct (skip_ws r1) as [|c r2] eqn:E2; [reflexivity|].
    skipped_lengths.
    destruct (Ascii.eqb c ","%char); [apply IHe; lia|reflexivity].
Qed.

(** The fuel [valid] starts with is enough: a larger amount gives the
    same answer. *)
Lemma valid_value_fuel (l : text) (F : nat) :
  2 * List.length l + 1 <= F ->
  valid_value F l = valid_value (2 * List.length l + 1) l.
Proof.
  intros H. apply (proj1 (valid_fuel (2 * List.length l + 1))); lia.
Qed.


Lemma stringify_defined (v : JsValue) :
  v <> JUndefined -> stringify v = Some (text_of v).
Proof. destruct v; try reflexivity. congruence. Qed.

End JsonFacts.

(** * The token lifecycle *)

Module Lifecycle.

Local Open Scope string_scope.
Local Open Scope list_scope.

Ltac run_auth :=
  cbv [bind ret emit read modify set_accessToken set_tokenData set_oauthServer
       set_tokenFile set_closing result final events];
  cbn [fst snd List.app accessToken tokenData oauthServer tokenFile closing].

Lemma date_before_now_past (env : Env) (v : JsValue) (d : Z) :
  date_value env v = Some d -> (d < now env)%Z -> date_before_now env v = true.
Proof.
  intros Hd Hlt. unfold date_before_now. rewrite Hd. now apply Z.ltb_lt.
Qed.

Lemma date_before_now_future (env : Env) (v : JsValue) (d : Z) :
  date_value env v = Some d -> (now env <= d)%Z -> date_before_now env v = false.
Proof.
  intros Hd Hle. unfold date_before_now. rewrite Hd. now apply Z.ltb_ge.
Qed.

(** What [getAccessToken] does with an expired record when the library
    agrees that it is expired. *)
Lemma getAccessToken_expired_eq (cfg : Config) (env : Env) (s : State) :
  expired_in_memory env s ->
  token_expired env (tokenData s) = true ->
  getAccessToken cfg env s
  = match refresh env (tokenData s) with
    | Returned token =>
        let s1 := mkState (Json.get token "access_token") token
                          (oauthServer s) (tokenFile s) (closing s) in
        let w := saveTokenToFile cfg env token s1 in
        (accessToken (final w), final w,
         [Log "Token is expired. Attempting to refresh..."; RefreshAttempt (tokenData s)]
         ++ events w ++ [Log "Token refreshed and saved successfully."])
    | Thrown e =>
        (JNull, mkState JNull JNull (oauthServer s) (tokenFile s) (closing s),
         [Log "Token is expired. Attempting to refresh..."; RefreshAttempt (tokenData s);
          LogErr "Failed to refresh token:" e])
    end.
Proof.
  intros (Htd & Htok & Hea & d & Hd & Hlt) Hlib.
  unfold getAccessToken. run_auth.
  rewrite Htd, Htok, Hea, (date_before_now_past env _ d Hd Hlt), Hlib.
  cbn [negb orb andb]. run_auth.
  destruct (refresh env (tokenData s)) as [token|e]; [|reflexivity].
  cbn [fst snd]. 
  destruct (saveTokenToFile cfg env token _) as [[u s2] t2]. cbn [fst snd List.app].
  reflexivity.
Qed.

Lemma saveTokenToFile_tokens (cfg : Config) (env : Env) (td : JsValue) (s : State) :
  let w := saveTokenToFile cfg env td s in
  accessToken (final w) = accessToken s /\ tokenData (final w) = tokenData s
  /\ oauthServer (final w) = oauthServer s /\ closing (final w) = closing s.
Proof.
  unfold saveTokenToFile.
  destruct (Json.stringify td); [destruct (write_error env)|]; run_auth; auto.
Qed.


Lemma saveTokenToFile_written (cfg : Config) (env : Env) (td : JsValue) (s : State)
      (content : string) :
  Json.stringify td = Some content ->
  let w := saveTokenToFile cfg env td s in
  count is_write (events w) = 1 /\ In (FileWrite content) (events w)
  /\ (write_error env = None -> tokenFile (final w) = Some content).
Proof.
  intros Hc. unfold saveTokenToFile. rewrite Hc.
  destruct (write_error env); run_auth; repeat split; auto; try discriminate;
    cbn; auto.
Qed.

Lemma count_app (p : Event -> bool) (a b : list Event) :
  count p (a ++ b) = count p a + count p b.
Proof. unfold count. now rewrite filter_app, length_app. Qed.

(** C7: an in-memory record whose [expires_at] is not in the past is
    answered from memory: [getAccessToken] returns the stored access token,
    performs no effect at all (no refresh, no exchange, no write) and
    leaves the state, the token file included, as it was. *)
Theorem getAccessToken_unexpired (cfg : Config) (env : Env) (s : State) (d : Z) :
  Json.truthy (tokenData s) = true ->
  Json.truthy (accessToken s) = true ->
  date_value env (Json.get (tokenData s) "expires_at") = Some d ->
  (now env <= d)%Z ->
  getAccessToken cfg env s = (accessToken s, s, []).
Proof.
  intros Htd Htok Hd Hle. unfold getAccessToken. run_auth.
  rewrite Htd, Htok, (date_before_now_future env _ d Hd Hle), andb_false_r.
  reflexivity.
Qed.

Lemma getAccessToken_unexpired_witness :
  getAccessToken sample_config env_ok (holding new_record None)
  = (JStr "new-access", holding new_record None, []).
Proof.
  apply (getAccessToken_unexpired sample_config env_ok (holding new_record None)
           1704099600000%Z); [reflexivity | reflexivity | reflexivity | vm_compute; discriminate].
Defined.

(** C10: a record without [expires_at] (the property is missing, or
    empty) is never taken for expired: whatever the clock reads,
    [getAccessToken] attempts no refresh and returns the stored access
    token, with the state untouched. *)
Theorem getAccessToken_no_expiry (cfg : Config) (env : Env) (s : State) :
  Json.truthy (tokenData s) = true ->
  Json.truthy (accessToken s) = true ->
  Json.get (tokenData s) "expires_at" = JUndefined
  \/ Json.get (tokenData s) "expires_at" = JStr EmptyString ->
  getAccessToken cfg env s = (accessToken s, s, []).
Proof.
  intros Htd Htok Hea. unfold getAccessToken. run_auth.
  rewrite Htd, Htok. destruct Hea as [-> | ->]; reflexivity.
Qed.

Lemma getAccessToken_no_expiry_witness :
  getAccessToken sample_config env_ok (holding undated_record None)
  = (JStr "plain-access", holding undated_record None, []).
Proof.
  apply (getAccessToken_no_expiry sample_config env_ok (holding undated_record None));
    [reflexivity | reflexivity | left; reflexivity].
Defined.



Ltac sample_expired :=
  repeat split; try reflexivity; exists 1704067200000%Z; split; reflexivity.


(** C1, as stated, fails: after a transient failure of the refresh the
    in-memory record is gone. *)
Lemma transient_failure_clears_record :
  ~ keeps_record_on_transient_failure sample_config env_transient
      (holding old_record None).
Proof.
  intros H.
  assert (He : expired_in_memory env_transient (holding old_record None))
    by sample_expired.
  destruct (H He "ECONNRESET" eq_refl) as (_ & Ht & _).
  vm_compute in Ht. discriminate Ht.
Qed.

(** C1, amended: when the refresh of an expired record fails, with a
    transient (network-level) error as with any other (the [catch] block
    does not tell them apart), [getAccessToken] returns [null] and clears
    both [accessToken] and [tokenData]; it made one refresh attempt, wrote
    nothing, and the token file is as it was. *)
Theorem getAccessToken_refresh_failure (cfg : Config) (env : Env) (s : State)
        (e : LibError) :
  expired_in_memory env s ->
  token_expired env (tokenData s) = true ->
  refresh env (tokenData s) = Thrown e ->
  let r := getAccessToken cfg env s in
  result r = JNull /\ cleared (final r)
  /\ tokenFile (final r) = tokenFile s
  /\ count is_refresh (events r) = 1 /\ count is_write (events r) = 0.
Proof.
  intros Hexp Hlib Hthrow. cbv zeta.
  rewrite (getAccessToken_expired_eq cfg env s Hexp Hlib), Hthrow.
  repeat split.
Qed.

Lemma getAccessToken_refresh_failure_witness :
  expired_in_memory env_transient (holding old_record None)
  /\ refresh env_transient (tokenData (holding old_record None))
     = Thrown (NetworkFailure "ECONNRESET")
  /\ cleared (final (getAccessToken sample_config env_transient
                       (holding old_record None))).
Proof.
  assert (He : expired_in_memory env_transient (holding old_record None))
    by sample_expired.
  split; [exact He|]. split; [reflexivity|].
  destruct (getAccessToken_refresh_failure sample_config env_transient
              (holding old_record None) (NetworkFailure "ECONNRESET")
              He eq_refl eq_refl) as (_ & Hc & _).
  exact Hc.
Defined.

(** **** Runs from the cleared state *)

Lemma getAccessToken_cleared (cfg : Config) (env : Env) (s : State) :
  cleared s -> getAccessToken cfg env s = (JNull, s, []).
Proof.
  intros [Ha Ht]. unfold getAccessToken. run_auth. rewrite Ht. reflexivity.
Qed.

Lemma saveTokenToFile_final (cfg : Config) (env : Env) (td : JsValue) (s : State) :
  exists f, final (saveTokenToFile cfg env td s)
            = mkState (accessToken s) (tokenData s) (oauthServer s) f (closing s).
Proof.
  unfold saveTokenToFile.
  destruct (Json.stringify td); [destruct (write_error env)|]; run_auth;
    destruct s; eexists; reflexivity.
Qed.

Lemma route_callback_tokens (cfg : Config) (env : Env) (code : JsValue) (s : State) :
  completes_authorization env (GetCallback code) = false ->
  accessToken (final (route_callback cfg env code s)) = accessToken s
  /\ tokenData (final (route_callback cfg env code s)) = tokenData s
  /\ tokenFile (final (route_callback cfg env code s)) = tokenFile s.
Proof.
  unfold completes_authorization, route_callback. intros H.
  destruct (Json.truthy code); cbn [negb andb] in *.
  - destruct (getToken env code) as [token|e]; [discriminate H|].
    unfold log_exchange_error.
    destruct e as [m [b|]|m]; run_auth; destruct (oauthServer s); auto.
  - run_auth. destruct (oauthServer s); auto.
Qed.

Lemma final_then_ret {A B : Type} (m : M A) (b : B) (s : State) :
  final (bind m (fun _ => ret b) s) = final (m s).
Proof.
  unfold bind, ret, final. destruct (m s) as [[a s1] t1]. reflexivity.
Qed.

Lemma result_then_ret {A B : Type} (m : M A) (b : B) (s : State) :
  result (bind m (fun _ => ret b) s) = b.
Proof.
  unfold bind, ret, result. destruct (m s) as [[a s1] t1]. reflexivity.
Qed.

(** The operations of the listener other than a completed callback
    leave both token variables alone. *)
Lemma listener_step_tokens (cfg : Config) (env : Env) (op : Op) (s : State) :
  op <> CallGetAccessToken ->
  completes_authorization env op = false ->
  accessToken (final (step cfg env op s)) = accessToken s
  /\ tokenData (final (step cfg env op s)) = tokenData s.
Proof.
  intros Hop Hc. destruct op; cbn [step]; try rewrite final_then_ret.
  - congruence.
  - unfold startAuthorizationFlow. run_auth.
    destruct (oauthServer s); [auto|]. destruct (_ || _); auto.
  - unfold on_listening. run_auth. destruct (open_fails env); auto.
  - auto.
  - auto.
  - destruct (route_callback_tokens cfg env code s Hc) as (Ha & Ht & _). auto.
  - unfold on_closed. run_auth. destruct (closing s) as [|[|] q]; auto.
Qed.

Lemma step_keeps_cleared (cfg : Config) (env : Env) (op : Op) (s : State) :
  cleared s -> completes_authorization env op = false ->
  cleared (final (step cfg env op s))
  /\ (op = CallGetAccessToken -> result (step cfg env op s) = JNull).
Proof.
  intros Hc Hop.
  assert (Hdec : op = CallGetAccessToken \/ op <> CallGetAccessToken)
    by (destruct op; auto; right; discriminate).
  destruct Hdec as [-> | Hne].
  - cbn [step]. rewrite (getAccessToken_cleared cfg env s Hc). auto.
  - destruct (listener_step_tokens cfg env op s Hne Hop) as [Ha Ht].
    destruct Hc as [Hca Hct]. split; [|congruence].
    split; congruence.
Qed.

Lemma run_keeps_cleared (cfg : Config) (ops : list (Env * Op)) :
  Forall (fun eo => completes_authorization (fst eo) (snd eo) = false) ops ->
  forall s, cleared s ->
    cleared (snd (run cfg ops s))
    /\ forall i env, nth_error ops i = Some (env, CallGetAccessToken) ->
                     nth_error (fst (run cfg ops s)) i = Some JNull.
Proof.
  induction 1 as [|[env op] ops Hop Hops IH]; intros s Hc.
  - split; [exact Hc|]. intros [|i] env H; discriminate H.
  - cbn [run fst snd] in *.
    destruct (step_keeps_cleared cfg env op s Hc Hop) as [Hc1 Hres].
    destruct (IH _ Hc1) as [Hc2 Hvals].
    destruct (run cfg ops (final (step cfg env op s))) as [vs s'] eqn:Erun.
    cbn [fst snd] in *. split; [exact Hc2|].
    intros [|i] env' Hi; cbn [nth_error] in *.
    + injection Hi as -> ->. now rewrite Hres.
    + eauto.
Qed.

(** C3: once the refresh of an expired record has failed because the
    provider rejected the refresh token, both token variables are [null],
    and they stay so through every later operation that is not a completed
    authorization (a callback carrying a code whose exchange succeeds):
    each [getAccessToken] among them returns [null]. *)
Theorem terminal_failure_stays_unavailable (cfg : Config) (env : Env) (s : State)
        (message : string) (body : option string) (ops : list (Env * Op)) :
  expired_in_memory env s ->
  token_expired env (tokenData s) = true ->
  refresh env (tokenData s) = Thrown (ProviderRejected message body) ->
  Forall (fun eo => completes_authorization (fst eo) (snd eo) = false) ops ->
  let r := getAccessToken cfg env s in
  result r = JNull /\ cleared (final r)
  /\ cleared (snd (run cfg ops (final r)))
  /\ forall i env', nth_error ops i = Some (env', CallGetAccessToken) ->
                    nth_error (fst (run cfg ops (final r))) i = Some JNull.
Proof.
  intros Hexp Hlib Hthrow Hops. cbv zeta.
  assert (Hc : cleared (final (getAccessToken cfg env s))).
  { rewrite (getAccessToken_expired_eq cfg env s Hexp Hlib), Hthrow. split; reflexivity. }
  split.
  - rewrite (getAccessToken_expired_eq cfg env s Hexp Hlib), Hthrow. reflexivity.
  - split; [exact Hc|]. apply (run_keeps_cleared cfg ops Hops _ Hc).
Qed.

Lemma terminal_failure_stays_unavailable_witness :
  let ops := [(env_ok, CallGetAccessToken); (env_ok, CallStartAuthorizationFlow);
              (env_ok, GetCallback JUndefined); (env_terminal, GetCallback (JStr "c0de"));
              (env_ok, EvClosed); (env_ok, CallGetAccessToken)] in
  Forall (fun eo => completes_authorization (fst eo) (snd eo) = false) ops
  /\ cleared (snd (run sample_config ops
                     (final (getAccessToken sample_config env_terminal
                               (holding old_record None)))))
  /\ nth_error (fst (run sample_config ops
                       (final (getAccessToken sample_config env_terminal
                                 (holding old_record None))))) 5 = Some JNull.
Proof.
  cbv zeta.
  assert (Hops : Forall (fun eo => completes_authorization (fst eo) (snd eo) = false)
                   [(env_ok, CallGetAccessToken); (env_ok, CallStartAuthorizationFlow);
                    (env_ok, GetCallback JUndefined);
                    (env_terminal, GetCallback (JStr "c0de"));
                    (env_ok, EvClosed); (env_ok, CallGetAccessToken)])
    by (repeat constructor).
  split; [exact Hops|].
  assert (He : expired_in_memory env_terminal (holding old_record None))
    by sample_expired.
  destruct (terminal_failure_stays_unavailable sample_config env_terminal
              (holding old_record None) "invalid_grant" (Some "Refresh token invalid") _
              He eq_refl eq_refl Hops) as (_ & _ & Hc & Hv).
  split; [exact Hc|]. exact (Hv 5 env_ok eq_refl).
Defined.

(** **** The link between the two token variables *)

Lemma loadTokenFromFile_state (cfg : Config) (env : Env) (s : State) :
  final (loadTokenFromFile cfg env s) = s.
Proof.
  unfold loadTokenFromFile. run_auth.
  destruct (tokenFile s); [|reflexivity]. run_auth.
  destruct (read_error env); [reflexivity|].
  destruct (Json.parse s0); reflexivity.
Qed.

Lemma token_linked_set (token : JsValue) (o : option Server) (f : option string)
      (q : list CloseCallback) :
  token_linked (mkState (Json.get token "access_token") token o f q).
Proof. right. reflexivity. Qed.

Lemma token_linked_truthy (s : State) :
  token_linked s -> Json.truthy (accessToken s) = true ->
  Json.truthy (tokenData s) = true.
Proof.
  intros [H|H] Ht; rewrite H in Ht; [discriminate Ht|].
  destruct (tokenData s); try discriminate Ht; reflexivity.
Qed.

Lemma token_linked_same (s s' : State) :
  accessToken s' = accessToken s -> tokenData s' = tokenData s ->
  token_linked s -> token_linked s'.
Proof. unfold token_linked. intros -> ->. auto. Qed.

Lemma getAccessToken_linked (cfg : Config) (env : Env) (s : State) :
  token_linked s -> token_linked (final (getAccessToken cfg env s)).
Proof.
  intros Hl. unfold getAccessToken. run_auth.
  destruct (negb _ || negb _); [exact Hl|].
  destruct (_ && _); [|exact Hl]. run_auth.
  destruct (token_expired env (tokenData s)); [|exact Hl]. run_auth.
  destruct (refresh env (tokenData s)) as [token|e].
  - match goal with
    | |- context [saveTokenToFile cfg env token ?s1] =>
        destruct (saveTokenToFile_final cfg env token s1) as [f Hf];
        destruct (saveTokenToFile cfg env token s1) as [[u s2] t2]
    end.
    unfold final in Hf. cbn [fst snd] in *. subst s2. apply token_linked_set.
  - left. reflexivity.
Qed.

Lemma route_callback_linked (cfg : Config) (env : Env) (code : JsValue) (s : State) :
  token_linked s -> token_linked (final (route_callback cfg env code s)).
Proof.
  intros Hl.
  destruct (completes_authorization env (GetCallback code)) eqn:Hc.
  - cbn [completes_authorization] in Hc. apply andb_true_iff in Hc.
    destruct Hc as [Hcode Hex]. unfold route_callback. rewrite Hcode.
    destruct (getToken env code) as [token|e]; [|discriminate Hex].
    cbn [negb]. run_auth.
    destruct (Json.truthy token).
    + match goal with
      | |- context [saveTokenToFile cfg env token ?s1] =>
          destruct (saveTokenToFile_final cfg env token s1) as [f Hf];
          destruct (saveTokenToFile cfg env token s1) as [[u s2] t2]
      end.
      unfold final in Hf. cbn [fst snd] in *. subst s2.
      cbn [oauthServer closing accessToken tokenData tokenFile].
      destruct (oauthServer s); apply token_linked_set.
    + cbn [fst snd oauthServer closing accessToken tokenData tokenFile].
      destruct (oauthServer s); apply token_linked_set.
  - destruct (route_callback_tokens cfg env code s Hc) as (Ha & Ht & _).
    exact (token_linked_same s _ Ha Ht Hl).
Qed.

Lemma step_linked (cfg : Config) (env : Env) (op : Op) (s : State) :
  token_linked s -> token_linked (final (step cfg env op s)).
Proof.
  intros Hl.
  destruct op; try (cbn [step]; rewrite final_then_ret; apply route_callback_linked; exact Hl);
    try (cbn [step]; apply getAccessToken_linked; exact Hl);
    (match goal with
     | |- token_linked (final (step cfg env ?op s)) =>
         destruct (listener_step_tokens cfg env op s ltac:(discriminate) eq_refl) as [Ha Ht]
     end; exact (token_linked_same s _ Ha Ht Hl)).
Qed.

Lemma run_linked (cfg : Config) (ops : list (Env * Op)) (s : State) :
  token_linked s -> token_linked (snd (run cfg ops s)).
Proof.
  revert s. induction ops as [|[env op] ops IH]; intros s Hl; [exact Hl|].
  cbn [run]. pose proof (IH _ (step_linked cfg env op s Hl)) as H.
  destruct (run cfg ops (final (step cfg env op s))) as [vs s']. exact H.
Qed.

Lemma initializeAuth_linked (cfg : Config) (env : Env) (s : State) :
  accessToken s = JNull -> token_linked (final (initializeAuth cfg env s)).
Proof.
  intros Hnull. unfold initializeAuth.
  pose proof (loadTokenFromFile_state cfg env s) as Hs.
  unfold bind at 1. unfold emit at 1. unfold bind at 1.
  destruct (loadTokenFromFile cfg env s) as [[loaded s1] t1].
  unfold final in Hs. cbn [fst snd] in Hs. subst s1. run_auth.
  destruct (Json.truthy loaded && _).
  - run_auth. destruct (_ && _); [|apply token_linked_set]. run_auth.
    destruct (token_expired env loaded); [|apply token_linked_set]. run_auth.
    destruct (refresh env loaded) as [token|e]; [|left; reflexivity]. run_auth.
    destruct (Json.truthy token); [|apply token_linked_set].
    match goal with
    | |- context [saveTokenToFile cfg env token ?s1] =>
        destruct (saveTokenToFile_final cfg env token s1) as [f Hf];
        destruct (saveTokenToFile cfg env token s1) as [[u s2] t2]
    end.
    unfold final in Hf. cbn [fst snd] in *. subst s2. apply token_linked_set.
  - left. exact Hnull.
Qed.

(** C4, as stated, fails: [initializeAuth] stores whatever object the
    token file holds.  A file with nothing but an access token yields a
    record without the other required fields. *)
Lemma initialize_accepts_partial_record :
  ~ no_partial_state
      (final (initializeAuth sample_config env_ok
                (initial_state (Json.stringify (JObj [("access_token", JStr "tok")]))))).
Proof.
  intros [H | [H _]]; vm_compute in H; discriminate H.
Qed.

(** C4, amended: after [initializeAuth] at process start and after any
    further operations, [accessToken] is [null] or is the [access_token]
    of [tokenData]; so a usable [accessToken] never goes without a
    populated [tokenData].  (The fields of [tokenData] are those of the
    object the file or the provider supplied; nothing validates them.) *)
Theorem token_state_linked (cfg : Config) (env : Env) (file : option string)
        (ops : list (Env * Op)) :
  let s' := snd (run cfg ops (final (initializeAuth cfg env (initial_state file)))) in
  token_linked s'
  /\ (Json.truthy (accessToken s') = true -> Json.truthy (tokenData s') = true).
Proof.
  cbv zeta.
  assert (H : token_linked
                (snd (run cfg ops (final (initializeAuth cfg env (initial_state file))))))
    by (apply run_linked, initializeAuth_linked; reflexivity).
  split; [exact H|]. apply token_linked_truthy, H.
Qed.

End Lifecycle.

(** * The token store *)

Module Store.

Import Lifecycle.
Local Open Scope string_scope.
Local Open Scope list_scope.

Lemma token_object_json (r : FitbitTokenData) : json_data (token_object r) = true.
Proof.
  unfold token_object. destruct (expires_at r); reflexivity.
Qed.

(** What [loadTokenFromFile] returns after [saveTokenToFile] wrote JSON
    data. *)
Lemma save_then_load_json (cfg : Config) (env env' : Env) (s : State) (v : JsValue) :
  json_data v = true ->
  write_error env = None -> read_error env' = None ->
  result (loadTokenFromFile cfg env' (final (saveTokenToFile cfg env v s))) = v.
Proof.
  intros Hv Hw Hr.
  destruct (JsonFacts.parse_stringify v Hv) as (content & Hs & Hp).
  unfold saveTokenToFile, loadTokenFromFile. rewrite Hs, Hw. run_auth.
  rewrite Hr, Hp. reflexivity.
Qed.

(** C6: for every token record, with or without [expires_at],
    [saveTokenToFile] followed by [loadTokenFromFile] gives back the
    object that was saved (the write and the read succeeding). *)
Theorem save_then_load (cfg : Config) (env env' : Env) (s : State)
        (r : FitbitTokenData) :
  write_error env = None -> read_error env' = None ->
  result (loadTokenFromFile cfg env'
            (final (saveTokenToFile cfg env (token_object r) s)))
  = token_object r.
Proof.
  intros Hw Hr. apply save_then_load_json; auto using token_object_json.
Qed.

Lemma save_then_load_witness :
  result (loadTokenFromFile sample_config env_ok
            (final (saveTokenToFile sample_config env_ok (token_object undated_record)
                      (initial_state None))))
  = token_object undated_record.
Proof.
  apply (save_then_load sample_config env_ok env_ok (initial_state None) undated_record);
    reflexivity.
Defined.

End Store.

(** * The callback listener *)

Module Listener.

Import Lifecycle.
Local Open Scope string_scope.
Local Open Scope list_scope.

(** C8: [startAuthorizationFlow] does nothing but log when a listener
    instance already exists, or when the client identifier or the client
    secret is not configured: the state is unchanged and nothing is
    bound. *)
Theorem startAuthorizationFlow_noop (cfg : Config) (s : State) :
  oauthServer s <> None \/ client_id cfg = EmptyString \/ client_secret cfg = EmptyString ->
  let r := startAuthorizationFlow cfg s in
  final r = s /\ count is_listen (events r) = 0
  /\ exists msg, events r = [Log msg].
Proof.
  intros H. unfold startAuthorizationFlow. run_auth.
  destruct (oauthServer s) as [srv|] eqn:Hsrv.
  - cbn [fst snd]. repeat split. eexists. reflexivity.
  - destruct H as [H | [H | H]]; [congruence | rewrite H | rewrite H].
    + cbn [String.eqb orb fst snd]. repeat split. eexists. reflexivity.
    + rewrite orb_true_r. cbn [fst snd]. repeat split. eexists. reflexivity.
Qed.

Lemma startAuthorizationFlow_noop_witness :
  let s := final (startAuthorizationFlow sample_config (initial_state None)) in
  oauthServer s = Some (HttpServer PORT)
  /\ final (startAuthorizationFlow sample_config s) = s
  /\ count is_listen (events (startAuthorizationFlow sample_config s)) = 0.
Proof.
  cbv zeta. split; [reflexivity|].
  assert (Hsrv : oauthServer (final (startAuthorizationFlow sample_config
                                       (initial_state None))) <> None)
    by (vm_compute; discriminate).
  destruct (startAuthorizationFlow_noop sample_config
              (final (startAuthorizationFlow sample_config (initial_state None)))
              (or_introl Hsrv)) as (Hs & Hl & _).
  split; [exact Hs | exact Hl].
Defined.

(** C9: the callback route answers 400 when the code is missing, 200
    with the success page when the exchange succeeds and 500 when it
    fails; on a missing code the listener reference is cleared (a running
    server is closed), no exchange is attempted and the token variables and
    the token file are as before. *)
Theorem callback_responses (cfg : Config) (env : Env) (code : JsValue) (s : State) :
  let r := route_callback cfg env code s in
  (Json.truthy code = false ->
     responses (events r) = [Respond 400 "Error: Authorization code missing."]
     /\ oauthServer (final r) = None
     /\ (oauthServer s <> None -> In ServerClose (events r))
     /\ count is_exchange (events r) = 0
     /\ accessToken (final r) = accessToken s
     /\ tokenData (final r) = tokenData s
     /\ tokenFile (final r) = tokenFile s)
  /\ (Json.truthy code = true ->
      forall token, getToken env code = Returned token ->
        responses (events r)
        = [Respond 200 "Authorization successful! You can close this window. The MCP Server is now authenticated."])
  /\ (Json.truthy code = true ->
      forall e, getToken env code = Thrown e ->
        responses (events r)
        = [Respond 500 "Error obtaining access token. Check MCP server logs."]).
Proof.
  cbv zeta. unfold route_callback. split; [|split].
  - intros ->. cbn [negb]. run_auth.
    destruct (oauthServer s) eqn:Hsrv; cbn; repeat split; auto; congruence.
  - intros -> token ->. cbn [negb]. run_auth.
    destruct (Json.truthy token).
    + unfold saveTokenToFile.
      destruct (Json.stringify token); [destruct (write_error env)|]; run_auth;
        destruct (oauthServer s); reflexivity.
    + run_auth. destruct (oauthServer s); reflexivity.
  - intros -> e ->. cbn [negb]. unfold log_exchange_error.
    destruct e as [m [b|]|m]; run_auth; destruct (oauthServer s); reflexivity.
Qed.

Lemma callback_responses_witness :
  responses (events (route_callback sample_config env_ok JUndefined
                       (holding old_record (Some (HttpServer PORT)))))
  = [Respond 400 "Error: Authorization code missing."]
  /\ responses (events (route_callback sample_config env_ok (JStr "c0de")
                          (holding old_record (Some (HttpServer PORT)))))
     = [Respond 200 "Authorization successful! You can close this window. The MCP Server is now authenticated."]
  /\ responses (events (route_callback sample_config env_terminal (JStr "c0de")
                          (holding old_record (Some (HttpServer PORT)))))
     = [Respond 500 "Error obtaining access token. Check MCP server logs."].
Proof.
  split; [|split].
  - destruct (callback_responses sample_config env_ok JUndefined
                (holding old_record (Some (HttpServer PORT)))) as (H & _ & _).
    destruct (H eq_refl) as (H400 & _). exact H400.
  - destruct (callback_responses sample_config env_ok (JStr "c0de")
                (holding old_record (Some (HttpServer PORT)))) as (_ & H & _).
    exact (H eq_refl _ eq_refl).
  - destruct (callback_responses sample_config env_terminal (JStr "c0de")
                (holding old_record (Some (HttpServer PORT)))) as (_ & _ & H).
    exact (H eq_refl _ eq_refl).
Defined.

(** C5 at a failing input: a callback carrying a code is handled while
    the listener runs and the exchange succeeds (or fails).  When the
    handler returns, [oauthServer] still holds the server, so an immediate
    [startAuthorizationFlow] is refused as already running; the reference
    is cleared only when the runtime later runs the close callback.  The
    missing-code path of the same handler and the handler of a bind error
    clear it before returning. *)
Lemma callback_keeps_server_reference :
  let listening := final (startAuthorizationFlow sample_config (initial_state None)) in
  let after := final (route_callback sample_config env_ok (JStr "c0de") listening) in
  oauthServer listening = Some (HttpServer PORT)
  /\ ~ clears_reference_synchronously sample_config env_ok (JStr "c0de") listening
  /\ ~ clears_reference_synchronously sample_config env_terminal (JStr "c0de") listening
  /\ clears_reference_synchronously sample_config env_ok JUndefined listening
  /\ oauthServer (final (on_error listening)) = None
  /\ startAuthorizationFlow sample_config after
     = (tt, after, [Log "OAuth server is already running."])
  /\ oauthServer (final (on_closed after)) = None.
Proof.
  cbv zeta. unfold clears_reference_synchronously.
  repeat split; try (intros H; vm_compute in H; discriminate H); reflexivity.
Qed.

End Listener.

(** * Process start: [loadTokenFromFile] and [initializeAuth] *)

Module Startup.

Import Lifecycle.
Local Open Scope string_scope.
Local Open Scope list_scope.

Lemma loadTokenFromFile_result (cfg : Config) (env : Env) (s : State) :
  result (loadTokenFromFile cfg env s)
  = match tokenFile s with
    | None => JNull
    | Some data =>
        match read_error env with
        | Some _ => JNull
        | None => match Json.parse data with Some v => v | None => JNull end
        end
    end.
Proof.
  unfold loadTokenFromFile. run_auth.
  destruct (tokenFile s); [|reflexivity]. run_auth.
  destruct (read_error env); [reflexivity|].
  destruct (Json.parse s0); reflexivity.
Qed.

Lemma loadTokenFromFile_events (cfg : Config) (env : Env) (s : State) :
  count is_refresh (events (loadTokenFromFile cfg env s)) = 0
  /\ count is_write (events (loadTokenFromFile cfg env s)) = 0
  /\ count is_exchange (events (loadTokenFromFile cfg env s)) = 0
  /\ (tokenFile s = None -> count is_read (events (loadTokenFromFile cfg env s)) = 0).
Proof.
  unfold loadTokenFromFile. run_auth.
  destruct (tokenFile s); [|repeat split]. run_auth.
  destruct (read_error env); [repeat split; discriminate|].
  destruct (Json.parse s0); repeat split; discriminate.
Qed.

(** Splits [initializeAuth] at its call of [loadTokenFromFile]: the
    value loaded, the (unchanged) state and the events of the load. *)
Ltac open_initialize cfg env s loaded t1 :=
  unfold initializeAuth;
  let Hs := fresh "Hs" in
  pose proof (loadTokenFromFile_state cfg env s) as Hs;
  pose proof (loadTokenFromFile_result cfg env s) as Hloaded;
  pose proof (loadTokenFromFile_events cfg env s) as Hquiet;
  unfold bind at 1; unfold emit at 1; unfold bind at 1;
  let s1 := fresh "s1" in
  destruct (loadTokenFromFile cfg env s) as [[loaded s1] t1];
  unfold final, result, events in Hs, Hloaded, Hquiet;
  cbn [fst snd] in Hs, Hloaded, Hquiet; subst s1.

(** X1: [loadTokenFromFile] only reads.  It leaves the whole state as
    it was and writes nothing; it answers [null] when the file is
    missing (without reading), when the read fails and when the text is
    not in the JSON grammar, and the value [JSON.parse] builds when the
    model holds it. *)
Theorem loadTokenFromFile_read_only (cfg : Config) (env : Env) (s : State) :
  let r := loadTokenFromFile cfg env s in
  final r = s
  /\ count is_write (events r) = 0
  /\ (tokenFile s = None -> result r = JNull /\ count is_read (events r) = 0)
  /\ (read_error env <> None -> result r = JNull)
  /\ (forall data, tokenFile s = Some data -> Json.valid data = false ->
                   result r = JNull)
  /\ (forall data v, tokenFile s = Some data -> read_error env = None ->
                     Json.parse data = Some v -> result r = v).
Proof.
  cbv zeta. rewrite loadTokenFromFile_state, loadTokenFromFile_result.
  pose proof (loadTokenFromFile_events cfg env s) as (_ & Hw & _ & Hr).
  split; [reflexivity|]. split; [exact Hw|].
  split; [intros H; split; [now rewrite H | exact (Hr H)]|].
  split; [|split].
  - intros H. destruct (tokenFile s); [|reflexivity].
    destruct (read_error env); [reflexivity | congruence].
  - intros data -> Hv. rewrite (JsonFacts.invalid_not_parsed data Hv).
    destruct (read_error env); reflexivity.
  - intros data v -> -> ->. reflexivity.
Qed.

Lemma loadTokenFromFile_read_only_witness :
  result (loadTokenFromFile sample_config env_ok (initial_state None)) = JNull
  /\ result (loadTokenFromFile sample_config env_ok (initial_state (Some "{ broken")))
     = JNull
  /\ result (loadTokenFromFile sample_config env_ok (initial_state (Some "[1, 2]")))
     = JArr [JNum 1; JNum 2].
Proof.
  split; [|split].
  - destruct (loadTokenFromFile_read_only sample_config env_ok (initial_state None))
      as (_ & _ & H & _).
    exact (proj1 (H eq_refl)).
  - destruct (loadTokenFromFile_read_only sample_config env_ok
                (initial_state (Some "{ broken"))) as (_ & _ & _ & _ & H & _).
    exact (H _ eq_refl eq_refl).
  - destruct (loadTokenFromFile_read_only sample_config env_ok
                (initial_state (Some "[1, 2]"))) as (_ & _ & _ & _ & _ & H).
    exact (H _ _ eq_refl eq_refl eq_refl).
Defined.

Lemma count_cons (p : Event -> bool) (e : Event) (t : list Event) :
  count p (e :: t) = (if p e then 1 else 0) + count p t.
Proof. unfold count. cbn [filter]. destruct (p e); reflexivity. Qed.

(** [initializeAuth] when nothing was loaded. *)
Lemma initializeAuth_absent (cfg : Config) (env : Env) (s : State) :
  result (loadTokenFromFile cfg env s) = JNull ->
  exists t1,
    count is_refresh t1 = 0 /\ count is_write t1 = 0 /\
    initializeAuth cfg env s
    = (tt, mkState (accessToken s) JNull (oauthServer s) (tokenFile s) (closing s),
       Log "Auth initialized. Checking for persisted token..."
       :: t1 ++ [Log "No persisted access token found or token data is invalid."]).
Proof.
  intros Hnull. open_initialize cfg env s loaded t1.
  unfold result in Hnull. cbn [fst] in Hnull. subst loaded.
  destruct Hquiet as (Hr & Hw & _). exists t1. repeat split; assumption.
Qed.

(** [initializeAuth] when a record was loaded that is not past its
    expiry. *)
Lemma initializeAuth_fresh (cfg : Config) (env : Env) (s : State) (loaded : JsValue) :
  result (loadTokenFromFile cfg env s) = loaded ->
  Json.truthy loaded = true ->
  Json.truthy (Json.get loaded "access_token") = true ->
  past_expiry env loaded = false ->
  exists t1,
    count is_refresh t1 = 0 /\ count is_write t1 = 0 /\
    initializeAuth cfg env s
    = (tt, mkState (Json.get loaded "access_token") loaded (oauthServer s)
                   (tokenFile s) (closing s),
       Log "Auth initialized. Checking for persisted token..."
       :: t1 ++ [Log "Persisted access token loaded successfully."]).
Proof.
  intros Hres Ht Ha Hp. open_initialize cfg env s loaded' t1.
  unfold result in Hres. cbn [fst] in Hres. subst loaded'.
  destruct Hquiet as (Hr & Hw & _). exists t1.
  unfold past_expiry in Hp. run_auth. rewrite Ht, Ha, Hp. cbn [andb]. run_auth.
  repeat split; assumption.
Qed.

(** X2: at process start without a usable token file (it is missing, it
    cannot be read, or its text is not in the JSON grammar),
    [initializeAuth] leaves the
    state absent: nothing is refreshed or written, and every later
    [getAccessToken] answers [null] without any effect. *)
Theorem initializeAuth_without_usable_file (cfg : Config) (env : Env)
        (file : option string) :
  no_usable_file env file ->
  let r := initializeAuth cfg env (initial_state file) in
  final r = initial_state file
  /\ count is_refresh (events r) = 0 /\ count is_write (events r) = 0
  /\ forall env', getAccessToken cfg env' (final r) = (JNull, final r, []).
Proof.
  intros Hfile.
  assert (Hnull : result (loadTokenFromFile cfg env (initial_state file)) = JNull).
  { rewrite loadTokenFromFile_result. cbn [tokenFile initial_state].
    destruct Hfile as [-> | [Hr | (data & -> & Hp)]]; [reflexivity | |].
    - destruct file; [|reflexivity]. destruct (read_error env); [reflexivity|congruence].
    - rewrite (JsonFacts.invalid_not_parsed data Hp).
      destruct (read_error env); reflexivity. }
  destruct (initializeAuth_absent cfg env (initial_state file) Hnull)
    as (t1 & Hr & Hw & ->).
  cbv zeta. unfold final, events. cbn [fst snd].
  rewrite !count_cons, !count_app, Hr, Hw.
  repeat split.
Qed.

Lemma initializeAuth_without_usable_file_witness :
  no_usable_file env_ok None
  /\ final (initializeAuth sample_config env_ok (initial_state None)) = initial_state None
  /\ getAccessToken sample_config env_ok
       (final (initializeAuth sample_config env_ok (initial_state None)))
     = (JNull, final (initializeAuth sample_config env_ok (initial_state None)), []).
Proof.
  assert (H : no_usable_file env_ok None) by (left; reflexivity).
  split; [exact H|].
  destruct (initializeAuth_without_usable_file sample_config env_ok None H)
    as (Hf & _ & _ & Hg).
  split; [exact Hf | exact (Hg env_ok)].
Defined.

(** [getAccessToken] on a populated state whose record is not past
    its expiry. *)
Lemma getAccessToken_not_past (cfg : Config) (env : Env) (s : State) :
  Json.truthy (tokenData s) = true ->
  Json.truthy (accessToken s) = true ->
  past_expiry env (tokenData s) = false ->
  getAccessToken cfg env s = (accessToken s, s, []).
Proof.
  intros Htd Htok Hp. unfold past_expiry in Hp. unfold getAccessToken. run_auth.
  rewrite Htd, Htok, Hp. reflexivity.
Qed.

Lemma truthy_nonempty (a : string) : a <> EmptyString -> Json.truthy (JStr a) = true.
Proof.
  intros H. cbn [Json.truthy]. destruct (String.eqb_spec a EmptyString); [contradiction|].
  reflexivity.
Qed.

(** X3: a record saved by one process is the token of the next, if it
    is still good.  When the saved record has a non-empty access token
    and is not past its expiry at the next process start, and the write
    and the read succeed, then [initializeAuth] on the file
    [saveTokenToFile] wrote holds the record again with its access token
    in [accessToken], nothing is refreshed or written, and
    [getAccessToken] returns the saved access token. *)
Theorem restart_restores_token (cfg : Config) (envw env : Env) (s : State)
        (r : FitbitTokenData) :
  write_error envw = None -> read_error env = None ->
  access_token r <> EmptyString ->
  past_expiry env (token_object r) = false ->
  let file := tokenFile (final (saveTokenToFile cfg envw (token_object r) s)) in
  let started := initializeAuth cfg env (initial_state file) in
  final started = loaded_state (token_object r) file
  /\ accessToken (final started) = JStr (access_token r)
  /\ count is_refresh (events started) = 0 /\ count is_write (events started) = 0
  /\ result (getAccessToken cfg env (final started)) = JStr (access_token r).
Proof.
  intros Hw Hr Ha Hp.
  destruct (JsonFacts.parse_stringify (token_object r) (Store.token_object_json r))
    as (content & Hs & Hparse).
  assert (Hfile : tokenFile (final (saveTokenToFile cfg envw (token_object r) s))
                  = Some content).
  { unfold saveTokenToFile. rewrite Hs, Hw. reflexivity. }
  cbv zeta. rewrite Hfile.
  assert (Hload : result (loadTokenFromFile cfg env (initial_state (Some content)))
                  = token_object r).
  { rewrite loadTokenFromFile_result. cbn [tokenFile initial_state].
    rewrite Hr, Hparse. reflexivity. }
  assert (Htok : Json.get (token_object r) "access_token" = JStr (access_token r))
    by reflexivity.
  destruct (initializeAuth_fresh cfg env (initial_state (Some content))
              (token_object r) Hload eq_refl) as (t1 & Hq1 & Hq2 & ->);
    [rewrite Htok; now apply truthy_nonempty | exact Hp |].
  unfold final, events. cbn [fst snd initial_state oauthServer tokenFile closing].
  rewrite !count_cons, !count_app, Hq1, Hq2.
  split; [reflexivity|]. split; [exact Htok|]. split; [reflexivity|].
  split; [reflexivity|].
  rewrite getAccessToken_not_past; cbn [accessToken tokenData];
    [exact Htok | reflexivity | rewrite Htok; now apply truthy_nonempty | exact Hp].
Qed.

Lemma restart_restores_token_witness :
  result (getAccessToken sample_config env_ok
            (final (initializeAuth sample_config env_ok
                      (initial_state
                         (tokenFile
                            (final (saveTokenToFile sample_config env_ok
                                      (token_object new_record)
                                      (initial_state None))))))))
  = JStr "new-access".
Proof.
  destruct (restart_restores_token sample_config env_ok env_ok (initial_state None)
              new_record eq_refl eq_refl) as (_ & _ & _ & _ & H);
    [discriminate | reflexivity | exact H].
Defined.

(** X4: [initializeAuth] applies the expiry handling of
    [getAccessToken].  When the file yields a record with an access
    token, the state [initializeAuth] ends in is the state
    [getAccessToken] ends in when called on that record in memory (the
    tokens a refresh returns being objects). *)
Theorem initializeAuth_as_getAccessToken (cfg : Config) (env : Env) (data : string)
        (loaded : JsValue) :
  read_error env = None -> Json.parse data = Some loaded ->
  Json.truthy loaded = true ->
  Json.truthy (Json.get loaded "access_token") = true ->
  (forall token, refresh env loaded = Returned token -> Json.truthy token = true) ->
  final (initializeAuth cfg env (initial_state (Some data)))
  = final (getAccessToken cfg env (loaded_state loaded (Some data))).
Proof.
  intros Hr Hparse Ht Ha Hobj.
  open_initialize cfg env (initial_state (Some data)) loaded' t1.
  cbn [tokenFile initial_state] in Hloaded. rewrite Hr, Hparse in Hloaded.
  subst loaded'. clear Hquiet.
  unfold getAccessToken, loaded_state. run_auth. rewrite Ht, Ha. cbn [andb negb orb].
  run_auth.
  destruct (Json.truthy (Json.get loaded "expires_at")
            && date_before_now env (Json.get loaded "expires_at")); [|reflexivity].
  run_auth. destruct (token_expired env loaded); [|reflexivity]. run_auth.
  destruct (refresh env loaded) as [token|e] eqn:Eref; [|reflexivity].
  rewrite (Hobj token eq_refl). unfold initial_state. run_auth.
  match goal with
  | |- context [saveTokenToFile cfg env token ?s1] =>
      destruct (saveTokenToFile cfg env token s1) as [[u s2] t2]
  end.
  reflexivity.
Qed.

Lemma initializeAuth_as_getAccessToken_witness :
  Json.parse sample_file = Some (token_object old_record)
  /\ final (initializeAuth sample_config env_ok (initial_state (Some sample_file)))
     = final (getAccessToken sample_config env_ok
                (loaded_state (token_object old_record) (Some sample_file)))
  /\ tokenData (final (initializeAuth sample_config env_ok
                         (initial_state (Some sample_file))))
     = token_object new_record.
Proof.
  assert (Hp : Json.parse sample_file = Some (token_object old_record))
    by (vm_compute; reflexivity).
  split; [exact Hp|].
  assert (Hobj : forall token,
             refresh env_ok (token_object old_record) = Returned token ->
             Json.truthy token = true)
    by (intros token E; injection E as <-; reflexivity).
  pose proof (initializeAuth_as_getAccessToken sample_config env_ok sample_file
                (token_object old_record) eq_refl Hp eq_refl eq_refl Hobj) as H.
  split; [exact H|]. rewrite H. vm_compute. reflexivity.
Defined.

End Startup.

(** * More on [getAccessToken] *)

Module Tokens.

Import Lifecycle Startup.
Local Open Scope string_scope.
Local Open Scope list_scope.

Lemma saveTokenToFile_counts (cfg : Config) (env : Env) (td : JsValue) (s : State) :
  let t := events (saveTokenToFile cfg env td s) in
  count is_write t <= 1 /\ count is_refresh t = 0 /\ count is_exchange t = 0
  /\ count is_listen t = 0 /\ count is_close t = 0.
Proof.
  unfold saveTokenToFile.
  destruct (Json.stringify td); [destruct (write_error env)|]; run_auth;
    cbv [count]; cbn; repeat split; lia.
Qed.

Lemma saveTokenToFile_failed (cfg : Config) (env : Env) (td : JsValue) (s : State)
      (err : string) :
  write_error env = Some err -> td <> JUndefined ->
  saveTokenToFile cfg env td s
  = (tt, mkState (accessToken s) (tokenData s) (oauthServer s)
                 (write_leaves env (tokenFile s) (Json.text_of td)) (closing s),
     [FileWrite (Json.text_of td); Log ("Error saving token to file: " ++ err)]).
Proof.
  intros Hw Hd. unfold saveTokenToFile.
  rewrite (JsonFacts.stringify_defined td Hd), Hw. reflexivity.
Qed.

Lemma writes_follow_refresh_after (t : list Event) :
  writes_follow_refresh true t = true.
Proof.
  induction t as [|e t IH]; [reflexivity|]. destruct e; cbn [writes_follow_refresh andb]; exact IH.
Qed.

(** The four ways through [getAccessToken]: the guard, the stored
    token, a refresh that returns, a refresh that throws. *)
Lemma getAccessToken_cases (cfg : Config) (env : Env) (s : State) :
  getAccessToken cfg env s = (JNull, s, [])
  \/ (Json.truthy (tokenData s) = true /\ Json.truthy (accessToken s) = true
      /\ exists t, (t = [] \/ t = [Log "Token is expired. Attempting to refresh..."])
                   /\ getAccessToken cfg env s = (accessToken s, s, t))
  \/ (exists token,
        refresh env (tokenData s) = Returned token /\
        getAccessToken cfg env s
        = (let w := saveTokenToFile cfg env token
                      (mkState (Json.get token "access_token") token
                               (oauthServer s) (tokenFile s) (closing s)) in
           (accessToken (final w), final w,
            [Log "Token is expired. Attempting to refresh...";
             RefreshAttempt (tokenData s)]
            ++ events w ++ [Log "Token refreshed and saved successfully."])))
  \/ (exists e,
        getAccessToken cfg env s
        = (JNull, mkState JNull JNull (oauthServer s) (tokenFile s) (closing s),
           [Log "Token is expired. Attempting to refresh...";
            RefreshAttempt (tokenData s); LogErr "Failed to refresh token:" e])).
Proof.
  unfold getAccessToken. run_auth.
  destruct (Json.truthy (tokenData s)) eqn:Htd; [|left; reflexivity].
  destruct (Json.truthy (accessToken s)) eqn:Htok; [|left; reflexivity].
  cbn [negb orb].
  destruct (_ && _).
  - run_auth. destruct (token_expired env (tokenData s)).
    + run_auth. destruct (refresh env (tokenData s)) as [token|e].
      * right. right. left. exists token. split; [reflexivity|].
        cbv zeta.
        destruct (saveTokenToFile cfg env token _) as [[u s2] t2]. reflexivity.
      * right. right. right. exists e. reflexivity.
    + right. left. split; [reflexivity|]. split; [reflexivity|].
      exists [Log "Token is expired. Attempting to refresh..."]. auto.
  - right. left. split; [reflexivity|]. split; [reflexivity|].
    exists []. auto.
Qed.

(** X5: when the record is past its expiry by the module's own test
    but the OAuth library does not report it expired, [getAccessToken]
    attempts no refresh: it logs the expiry and returns the stored access
    token, leaving the state as it was. *)
Theorem getAccessToken_library_disagrees (cfg : Config) (env : Env) (s : State) :
  expired_in_memory env s ->
  token_expired env (tokenData s) = false ->
  getAccessToken cfg env s
  = (accessToken s, s, [Log "Token is expired. Attempting to refresh..."]).
Proof.
  intros (Htd & Htok & Hea & d & Hd & Hlt) Hlib.
  unfold getAccessToken. run_auth.
  rewrite Htd, Htok, Hea, (date_before_now_past env _ d Hd Hlt), Hlib.
  reflexivity.
Qed.

Lemma getAccessToken_library_disagrees_witness :
  let env := mkEnv sample_now sample_dates (fun _ => false)
                   (fun _ => Thrown (NetworkFailure "unused"))
                   (fun _ => Thrown (NetworkFailure "unused"))
                   (fun _ _ => EmptyString) None None false (fun old _ => old) in
  result (getAccessToken sample_config env (holding old_record None))
  = JStr "old-access".
Proof.
  cbv zeta.
  rewrite getAccessToken_library_disagrees; [reflexivity | sample_expired | reflexivity].
Defined.

(** X6: an [expires_at] that is not a date (the runtime makes an
    Invalid Date of it) never counts as expired: [getAccessToken] returns
    the stored access token without any effect. *)
Theorem getAccessToken_invalid_date (cfg : Config) (env : Env) (s : State) :
  Json.truthy (tokenData s) = true ->
  Json.truthy (accessToken s) = true ->
  date_value env (Json.get (tokenData s) "expires_at") = None ->
  getAccessToken cfg env s = (accessToken s, s, []).
Proof.
  intros Htd Htok Hd. unfold getAccessToken. run_auth.
  unfold date_before_now. rewrite Htd, Htok, Hd, andb_false_r. reflexivity.
Qed.

Lemma getAccessToken_invalid_date_witness :
  let s := holding (mkToken "tok" "ref" 28800 (Some "soon") "weight" "Bearer" "U") None in
  getAccessToken sample_config env_ok s = (JStr "tok", s, []).
Proof.
  cbv zeta. apply getAccessToken_invalid_date; reflexivity.
Defined.

(** X7: a failed write does not undo a refresh.  When the refresh
    returns a token but [fs.writeFile] throws, [getAccessToken] has made
    one refresh attempt and one write attempt, still returns the new
    access token, and memory holds the new record; the token file is
    whatever the failed write left of it. *)
Theorem getAccessToken_write_failure (cfg : Config) (env : Env) (s : State)
        (token : JsValue) :
  expired_in_memory env s ->
  token_expired env (tokenData s) = true ->
  refresh env (tokenData s) = Returned token ->
  token <> JUndefined ->
  write_error env <> None ->
  let r := getAccessToken cfg env s in
  result r = Json.get token "access_token"
  /\ accessToken (final r) = Json.get token "access_token"
  /\ tokenData (final r) = token
  /\ count is_refresh (events r) = 1
  /\ count is_write (events r) = 1
  /\ tokenFile (final r) = write_leaves env (tokenFile s) (Json.text_of token).
Proof.
  intros Hexp Hlib Href Hdef Hw. cbv zeta.
  destruct (write_error env) as [err|] eqn:Herr; [clear Hw | congruence].
  rewrite (getAccessToken_expired_eq cfg env s Hexp Hlib), Href. cbv zeta.
  rewrite (saveTokenToFile_failed cfg env token _ err Herr Hdef).
  repeat split.
Qed.

Lemma getAccessToken_write_failure_witness :
  let r := getAccessToken sample_config env_disk_full (holding old_record (None)) in
  result r = JStr "new-access"
  /\ tokenData (final r) = token_object new_record
  /\ tokenFile (final r) = Some EmptyString.
Proof.
  cbv zeta.
  assert (He : expired_in_memory env_disk_full (holding old_record None))
    by sample_expired.
  assert (Hdef : token_object new_record <> JUndefined) by discriminate.
  assert (Hw : write_error env_disk_full <> None) by discriminate.
  destruct (getAccessToken_write_failure sample_config env_disk_full
              (holding old_record None) (token_object new_record)
              He eq_refl eq_refl Hdef Hw) as (H1 & _ & H2 & _ & _ & H3).
  split; [exact H1|]. split; [exact H2 | exact H3].
Defined.

(** X8: after a refresh, the next call is answered from memory.  When
    [getAccessToken] refreshed an expired record and the new record is not
    past its expiry at the next call, that call returns the new access
    token without any effect. *)
Theorem getAccessToken_then_from_memory (cfg : Config) (env env' : Env) (s : State)
        (token : JsValue) :
  expired_in_memory env s ->
  token_expired env (tokenData s) = true ->
  refresh env (tokenData s) = Returned token ->
  Json.truthy (Json.get token "access_token") = true ->
  past_expiry env' token = false ->
  let s1 := final (getAccessToken cfg env s) in
  getAccessToken cfg env' s1 = (Json.get token "access_token", s1, []).
Proof.
  intros Hexp Hlib Href Ha Hp. cbv zeta.
  rewrite (getAccessToken_expired_eq cfg env s Hexp Hlib), Href. cbv zeta.
  match goal with
  | |- context [saveTokenToFile cfg env token ?s0] =>
      pose proof (saveTokenToFile_tokens cfg env token s0) as (Hat & Htd & _ & _);
      destruct (saveTokenToFile cfg env token s0) as [[u s2] t2]
  end.
  unfold final in *. cbn [fst snd accessToken tokenData] in *.
  rewrite (getAccessToken_not_past cfg env' s2).
  - now rewrite Hat.
  - rewrite Htd. destruct token; try discriminate Ha; reflexivity.
  - now rewrite Hat.
  - now rewrite Htd.
Qed.

Lemma getAccessToken_then_from_memory_witness :
  getAccessToken sample_config env_ok
    (final (getAccessToken sample_config env_ok (holding old_record None)))
  = (JStr "new-access",
     final (getAccessToken sample_config env_ok (holding old_record None)), []).
Proof.
  assert (He : expired_in_memory env_ok (holding old_record None)) by sample_expired.
  exact (getAccessToken_then_from_memory sample_config env_ok env_ok
           (holding old_record None) (token_object new_record)
           He eq_refl eq_refl eq_refl eq_refl).
Defined.

(** X9: [getAccessToken] is confined to the token.  Whatever the state
    and the surroundings, one call makes at most one refresh attempt and
    at most one write, every write coming after a refresh attempt in the
    order of events; it never exchanges a code and never binds or closes
    a listener, and the listener reference and its pending close
    callbacks are as before. *)
Theorem getAccessToken_confined (cfg : Config) (env : Env) (s : State) :
  let r := getAccessToken cfg env s in
  count is_refresh (events r) <= 1
  /\ count is_write (events r) <= count is_refresh (events r)
  /\ writes_follow_refresh false (events r) = true
  /\ count is_exchange (events r) = 0
  /\ count is_listen (events r) = 0
  /\ count is_close (events r) = 0
  /\ oauthServer (final r) = oauthServer s
  /\ closing (final r) = closing s.
Proof.
  cbv zeta.
  destruct (getAccessToken_cases cfg env s)
    as [-> | [(_ & _ & t & Ht & ->) | [(token & _ & ->) | (e & ->)]]].
  - repeat split; cbv [count]; cbn; lia.
  - destruct Ht as [-> | ->]; repeat split; cbv [count]; cbn; lia.
  - cbv zeta.
    match goal with
    | |- context [saveTokenToFile cfg env token ?s0] =>
        pose proof (saveTokenToFile_tokens cfg env token s0) as (_ & _ & Hsrv & Hq);
        pose proof (saveTokenToFile_counts cfg env token s0) as (Hw & Hr & He & Hl & Hc);
        destruct (saveTokenToFile cfg env token s0) as [[u s2] t2]
    end.
    unfold final, events in *. cbn [fst snd oauthServer closing] in *.
    rewrite !count_app, Hr, He, Hl, Hc.
    repeat split; try assumption; try apply writes_follow_refresh_after;
      cbv [count] in *; cbn in *; lia.
  - repeat split; cbv [count]; cbn; lia.
Qed.

(** X10: [getAccessToken] only hands out the token memory holds.  A
    result other than [null] (or another falsy value) is the
    [accessToken] the call leaves in memory, and [tokenData] is populated
    beside it. *)
Theorem getAccessToken_returns_held_token (cfg : Config) (env : Env) (s : State) :
  let r := getAccessToken cfg env s in
  Json.truthy (result r) = true ->
  result r = accessToken (final r) /\ Json.truthy (tokenData (final r)) = true.
Proof.
  cbv zeta.
  destruct (getAccessToken_cases cfg env s)
    as [-> | [(Htd & _ & t & _ & ->) | [(token & _ & ->) | (e & ->)]]].
  - discriminate.
  - intros _. split; [reflexivity | exact Htd].
  - cbv zeta.
    match goal with
    | |- context [saveTokenToFile cfg env token ?s0] =>
        pose proof (saveTokenToFile_tokens cfg env token s0) as (Hat & Htd & _ & _);
        destruct (saveTokenToFile cfg env token s0) as [[u s2] t2]
    end.
    unfold final, result in *. cbn [fst snd accessToken tokenData] in *.
    rewrite Hat, Htd. intros Ha. split; [reflexivity|].
    destruct token; try discriminate Ha; reflexivity.
  - discriminate.
Qed.

Lemma getAccessToken_returns_held_token_witness :
  let r := getAccessToken sample_config env_ok (holding old_record None) in
  result r = accessToken (final r) /\ Json.truthy (tokenData (final r)) = true.
Proof.
  cbv zeta.
  exact (getAccessToken_returns_held_token sample_config env_ok
           (holding old_record None) eq_refl).
Defined.

End Tokens.

(** * More on the listener *)

Module Flow.

Import Lifecycle Tokens.
Local Open Scope string_scope.
Local Open Scope list_scope.

Ltac count_events :=
  intros;
  repeat (progress rewrite ?Startup.count_cons, ?count_app);
  repeat match goal with
    | H : count _ _ = _ |- _ => rewrite H
    end;
  reflexivity.

Lemma configured_guard (cfg : Config) :
  configured cfg ->
  (client_id cfg =? EmptyString) || (client_secret cfg =? EmptyString) = false.
Proof.
  intros [Hi Hs].
  destruct (String.eqb_spec (client_id cfg) EmptyString); [contradiction|].
  destruct (String.eqb_spec (client_secret cfg) EmptyString); [contradiction|].
  reflexivity.
Qed.

Lemma startAuthorizationFlow_binds (cfg : Config) (s : State) :
  oauthServer s = None -> configured cfg ->
  startAuthorizationFlow cfg s
  = (tt, mkState (accessToken s) (tokenData s) (Some (HttpServer PORT))
                 (tokenFile s) (closing s),
     [Listen PORT]).
Proof.
  intros Hs Hc. unfold startAuthorizationFlow. run_auth.
  rewrite Hs, (configured_guard cfg Hc). reflexivity.
Qed.

(** X11: with the credentials configured and no listener running,
    [startAuthorizationFlow] binds port 3000 once and records the server,
    touching neither token variable nor the token file; a second call
    right after changes nothing and binds nothing. *)
Theorem startAuthorizationFlow_binds_once (cfg : Config) (s : State) :
  oauthServer s = None -> configured cfg ->
  let r1 := startAuthorizationFlow cfg s in
  let r2 := startAuthorizationFlow cfg (final r1) in
  events r1 = [Listen PORT]
  /\ oauthServer (final r1) = Some (HttpServer PORT)
  /\ accessToken (final r1) = accessToken s
  /\ tokenData (final r1) = tokenData s
  /\ tokenFile (final r1) = tokenFile s
  /\ final r2 = final r1
  /\ count is_listen (events r1 ++ events r2) = 1.
Proof.
  intros Hs Hc. cbv zeta. rewrite (startAuthorizationFlow_binds cfg s Hs Hc).
  repeat split.
Qed.

Lemma startAuthorizationFlow_binds_once_witness :
  events (startAuthorizationFlow sample_config (initial_state None)) = [Listen 3000%Z].
Proof.
  assert (Hc : configured sample_config) by (split; discriminate).
  exact (proj1 (startAuthorizationFlow_binds_once sample_config (initial_state None)
                  eq_refl Hc)).
Defined.

(** X12: a bind error does not block a retry.  When the port could not
    be bound, the error handler clears the listener reference (the token
    variables are untouched), and the next [startAuthorizationFlow] binds
    again. *)
Theorem bind_error_allows_retry (cfg : Config) (s : State) :
  oauthServer s = None -> configured cfg ->
  let failed := final (on_error (final (startAuthorizationFlow cfg s))) in
  failed = s
  /\ events (startAuthorizationFlow cfg failed) = [Listen PORT].
Proof.
  intros Hs Hc. cbv zeta. rewrite (startAuthorizationFlow_binds cfg s Hs Hc).
  unfold on_error. run_auth. rewrite <- Hs.
  split; [destruct s; reflexivity|].
  rewrite startAuthorizationFlow_binds; [reflexivity | exact Hs | exact Hc].
Qed.

Lemma bind_error_allows_retry_witness :
  events (startAuthorizationFlow sample_config
            (final (on_error (final (startAuthorizationFlow sample_config
                                       (initial_state None))))))
  = [Listen 3000%Z].
Proof.
  assert (Hc : configured sample_config) by (split; discriminate).
  exact (proj2 (bind_error_allows_retry sample_config (initial_state None) eq_refl Hc)).
Defined.

(** The state a callback leaves behind, as far as the listener goes:
    with a server running, the reference is cleared or one close callback
    that clears it is queued. *)
Lemma route_callback_listener (cfg : Config) (env : Env) (code : JsValue) (s : State)
      (srv : Server) :
  oauthServer s = Some srv ->
  let s1 := final (route_callback cfg env code s) in
  (oauthServer s1 = None /\ closing s1 = closing s ++ [ClosedMissingCode])
  \/ (oauthServer s1 = Some srv /\ closing s1 = closing s ++ [ClosedAfterCallback]).
Proof.
  intros Hsrv. cbv zeta. unfold route_callback.
  destruct (Json.truthy code); cbn [negb].
  - right. destruct (getToken env code) as [token|e].
    + run_auth. destruct (Json.truthy token).
      * match goal with
        | |- context [saveTokenToFile cfg env token ?s0] =>
            pose proof (saveTokenToFile_tokens cfg env token s0) as (_ & _ & Ho & Hq);
            destruct (saveTokenToFile cfg env token s0) as [[u s2] t2]
        end.
        unfold final in *. cbn [fst snd oauthServer closing] in *.
        rewrite Ho, Hsrv. cbn [fst snd oauthServer closing].
        rewrite Ho, Hq, Hsrv. auto.
      * cbn [fst snd oauthServer closing]. rewrite Hsrv.
        cbn [fst snd oauthServer closing]. auto.
    + unfold log_exchange_error.
      destruct e as [m [b|]|m]; run_auth; rewrite Hsrv;
        cbn [fst snd oauthServer closing]; auto.
  - left. run_auth. rewrite Hsrv. cbn [fst snd oauthServer closing]. auto.
Qed.

(** X13: the listener serves one callback and can then be started
    afresh.  Whatever the callback request carries and however the
    exchange ends, once the runtime has run the close callback the
    listener reference is cleared, no callback is pending, and
    [startAuthorizationFlow] binds the port again. *)
Theorem listener_restarts_after_callback (cfg : Config) (env : Env) (code : JsValue)
        (s : State) :
  oauthServer s <> None -> closing s = [] -> configured cfg ->
  let closed := final (on_closed (final (route_callback cfg env code s))) in
  oauthServer closed = None /\ closing closed = []
  /\ events (startAuthorizationFlow cfg closed) = [Listen PORT].
Proof.
  intros Hsrv Hq Hc. cbv zeta.
  destruct (oauthServer s) as [srv|] eqn:Hs; [clear Hsrv | congruence].
  assert (H : oauthServer (final (on_closed (final (route_callback cfg env code s)))) = None
              /\ closing (final (on_closed (final (route_callback cfg env code s)))) = []).
  { destruct (route_callback_listener cfg env code s srv Hs) as [[Ho Hcl] | [Ho Hcl]];
      rewrite Hq in Hcl; cbn [List.app] in Hcl;
      revert Ho Hcl; generalize (final (route_callback cfg env code s));
      intros s1 Ho Hcl; unfold on_closed; run_auth; rewrite Hcl; run_auth; auto. }
  destruct H as [Ho Hcl]. split; [exact Ho|]. split; [exact Hcl|].
  rewrite startAuthorizationFlow_binds; [reflexivity | exact Ho | exact Hc].
Qed.

Lemma listener_restarts_after_callback_witness :
  let listening := final (startAuthorizationFlow sample_config (initial_state None)) in
  let closed := final (on_closed (final (route_callback sample_config env_ok
                                           (JStr "c0de") listening))) in
  oauthServer closed = None
  /\ events (startAuthorizationFlow sample_config closed) = [Listen 3000%Z].
Proof.
  cbv zeta.
  assert (Hc : configured sample_config) by (split; discriminate).
  assert (Hs : oauthServer (final (startAuthorizationFlow sample_config
                                     (initial_state None))) <> None)
    by (vm_compute; discriminate).
  destruct (listener_restarts_after_callback sample_config env_ok (JStr "c0de")
              (final (startAuthorizationFlow sample_config (initial_state None)))
              Hs eq_refl Hc) as (H1 & _ & H2).
  split; [exact H1 | exact H2].
Defined.

(** X14: a successful exchange installs the provider's token.  The
    callback handler makes one exchange attempt and no refresh, stores the
    token in [tokenData] and its [access_token] in [accessToken], and
    writes the token's JSON text to the token file (which holds it unless
    the write fails); a running server is told to close, once. *)
Theorem callback_success_installs_token (cfg : Config) (env : Env) (code : JsValue)
        (s : State) (token : JsValue) :
  Json.truthy code = true ->
  getToken env code = Returned token ->
  let r := route_callback cfg env code s in
  accessToken (final r) = Json.get token "access_token"
  /\ tokenData (final r) = token
  /\ count is_exchange (events r) = 1
  /\ count is_refresh (events r) = 0
  /\ (oauthServer s <> None -> count is_close (events r) = 1)
  /\ (forall content, Json.truthy token = true ->
        Json.stringify token = Some content -> write_error env = None ->
        tokenFile (final r) = Some content).
Proof.
  intros Hcode Hget. cbv zeta. unfold route_callback. rewrite Hcode, Hget.
  cbn [negb]. run_auth.
  destruct (Json.truthy token) eqn:Ht.
  - match goal with
    | |- context [saveTokenToFile cfg env token ?s0] =>
        pose proof (saveTokenToFile_tokens cfg env token s0) as (Ha & Htd & Ho & Hq);
        pose proof (saveTokenToFile_counts cfg env token s0) as (_ & Hr & He & _ & Hc);
        pose proof (saveTokenToFile_written cfg env token s0) as Hw;
        destruct (saveTokenToFile cfg env token s0) as [[u s2] t2]
    end.
    unfold final, events in *.
    cbn [fst snd accessToken tokenData oauthServer closing tokenFile] in *.
    rewrite Ho. destruct (oauthServer s) as [srv|];
      cbn [fst snd accessToken tokenData oauthServer closing tokenFile List.app];
      repeat split; auto; try congruence; try count_events;
      intros content _ Hs Hwe; destruct (Hw content Hs) as (_ & _ & Hf); auto.
  - destruct (oauthServer s) as [srv|];
      cbn [fst snd accessToken tokenData oauthServer closing tokenFile List.app];
      repeat split; auto; try congruence; discriminate.
Qed.

Lemma callback_success_installs_token_witness :
  let r := route_callback sample_config env_ok (JStr "c0de")
             (final (startAuthorizationFlow sample_config (initial_state None))) in
  accessToken (final r) = JStr "new-access"
  /\ tokenData (final r) = token_object new_record
  /\ count is_exchange (events r) = 1.
Proof.
  cbv zeta.
  destruct (callback_success_installs_token sample_config env_ok (JStr "c0de")
              (final (startAuthorizationFlow sample_config (initial_state None)))
              (token_object new_record) eq_refl eq_refl) as (H1 & H2 & H3 & _).
  split; [exact H1|]. split; [exact H2 | exact H3].
Defined.

(** X15: a failed exchange costs nothing.  When [getToken] throws, the
    handler has made one exchange attempt and written nothing; the token
    variables and the token file are those from before the callback, and a
    running server is told to close, once. *)
Theorem callback_exchange_failure_keeps_token (cfg : Config) (env : Env)
        (code : JsValue) (s : State) (e : LibError) :
  Json.truthy code = true ->
  getToken env code = Thrown e ->
  let r := route_callback cfg env code s in
  accessToken (final r) = accessToken s
  /\ tokenData (final r) = tokenData s
  /\ tokenFile (final r) = tokenFile s
  /\ count is_exchange (events r) = 1
  /\ count is_write (events r) = 0
  /\ (oauthServer s <> None -> count is_close (events r) = 1).
Proof.
  intros Hcode Hget. cbv zeta. unfold route_callback. rewrite Hcode, Hget.
  cbn [negb]. unfold log_exchange_error.
  destruct e as [m [b|]|m]; run_auth; destruct (oauthServer s) as [srv|];
    repeat split; auto; congruence.
Qed.

Lemma callback_exchange_failure_keeps_token_witness :
  let s := holding old_record (Some (HttpServer PORT)) in
  let r := route_callback sample_config env_terminal (JStr "c0de") s in
  accessToken (final r) = accessToken s /\ tokenData (final r) = tokenData s.
Proof.
  cbv zeta.
  destruct (callback_exchange_failure_keeps_token sample_config env_terminal
              (JStr "c0de") (holding old_record (Some (HttpServer PORT)))
              (ProviderRejected "invalid_grant" None) eq_refl eq_refl)
    as (H1 & H2 & _).
  split; [exact H1 | exact H2].
Defined.

(** X16: the listener's own events leave the token alone.  Starting the
    flow, the listening callback, a bind error, [GET /auth] and a close
    callback change neither token variable nor the token file, and make no
    refresh, exchange or write. *)
Theorem listener_events_leave_token (cfg : Config) (env : Env) (op : Op) (s : State) :
  is_listener_event op = true ->
  let r := step cfg env op s in
  accessToken (final r) = accessToken s
  /\ tokenData (final r) = tokenData s
  /\ tokenFile (final r) = tokenFile s
  /\ count is_refresh (events r) = 0
  /\ count is_exchange (events r) = 0
  /\ count is_write (events r) = 0.
Proof.
  intros Hop. cbv zeta. destruct op; try discriminate Hop; cbn [step].
  - unfold startAuthorizationFlow. run_auth.
    destruct (oauthServer s); [repeat split|]. destruct (_ || _); repeat split.
  - unfold on_listening. run_auth. destruct (open_fails env); repeat split.
  - repeat split.
  - repeat split.
  - unfold on_closed. run_auth. destruct (closing s) as [|[|] q]; repeat split.
Qed.

Lemma listener_events_leave_token_witness :
  let s := holding old_record (Some (HttpServer PORT)) in
  tokenData (final (step sample_config env_ok EvBindError s)) = tokenData s.
Proof.
  cbv zeta.
  destruct (listener_events_leave_token sample_config env_ok EvBindError
              (holding old_record (Some (HttpServer PORT))) eq_refl) as (_ & H & _).
  exact H.
Defined.

End Flow.

(** * More on the token store *)

Module Files.

Import Lifecycle Tokens.
Local Open Scope string_scope.
Local Open Scope list_scope.

(** X17: the token file holds the last record written.  For any JSON
    data (a record with further properties included), after a write that
    succeeds [loadTokenFromFile] returns exactly that data, whatever was
    saved before; neither function touches the token variables or the
    listener. *)
Theorem save_last_write_wins (cfg : Config) (env1 env2 env3 : Env) (s : State)
        (v1 v2 : JsValue) :
  json_data v2 = true ->
  write_error env2 = None -> read_error env3 = None ->
  let s2 := final (saveTokenToFile cfg env2 v2
                     (final (saveTokenToFile cfg env1 v1 s))) in
  let r := loadTokenFromFile cfg env3 s2 in
  result r = v2 /\ final r = s2
  /\ accessToken s2 = accessToken s /\ tokenData s2 = tokenData s
  /\ oauthServer s2 = oauthServer s /\ closing s2 = closing s.
Proof.
  intros Hv Hw Hr. cbv zeta.
  split; [apply Store.save_then_load_json; assumption|].
  split; [apply loadTokenFromFile_state|].
  pose proof (saveTokenToFile_tokens cfg env1 v1 s) as (Ha1 & Ht1 & Ho1 & Hq1).
  pose proof (saveTokenToFile_tokens cfg env2 v2 (final (saveTokenToFile cfg env1 v1 s)))
    as (Ha2 & Ht2 & Ho2 & Hq2).
  repeat split; congruence.
Qed.

Lemma save_last_write_wins_witness :
  result (loadTokenFromFile sample_config env_ok
            (final (saveTokenToFile sample_config env_ok
                      (JObj [("access_token", JStr "t2"); ("extra", JArr [JNum 1; JNull])])
                      (final (saveTokenToFile sample_config env_ok
                                (token_object old_record) (initial_state None))))))
  = JObj [("access_token", JStr "t2"); ("extra", JArr [JNum 1; JNull])].
Proof.
  exact (proj1 (save_last_write_wins sample_config env_ok env_ok env_ok
                  (initial_state None) (token_object old_record)
                  (JObj [("access_token", JStr "t2"); ("extra", JArr [JNum 1; JNull])])
                  eq_refl eq_refl eq_refl)).
Defined.

End Files.
